(** * fixed_interest_calculator: simple and compound interest, loan payment,
      amortization schedule (src/fix.py)

    The four calculators of src/fix.py are embedded once, over an interface
    [PyFloat] that names the operations Python performs on its [float] and
    [int] values.  Two implementations of the interface follow:

    - [Binary64]: IEEE 754 binary64 with CPython's conventions (division by
      zero raises, [round] is correctly rounded with ties to even, [**]
      follows [float_pow]).  This is what the program runs on.
    - [Exact]: the same operations over the real numbers, without rounding
      error or overflow.  It is the reading of the program "absent
      floating-point error". *)

From Stdlib Require Import ZArith List Bool Lia.
From Stdlib Require String.
Import String.StringSyntax.
#[local] Delimit Scope string_scope with string.
From Stdlib Require Import Floats.
From Stdlib Require Import Reals Lra Psatz.
Import ListNotations.

Set Implicit Arguments.

(** ** Outcomes of a Python expression *)

(** The built-in exceptions the arithmetic of src/fix.py can raise. *)
Inductive pyexn : Type :=
| ZeroDivisionError
| OverflowError
| ValueError.

(** [Ok v]: the expression evaluates to [v].  [Raise e]: it raises [e].
    [Complex]: a power with a negative base and a fractional exponent left
    the floats; Python goes on with [complex] values, which are not followed
    here. *)
Inductive outcome (A : Type) : Type :=
| Ok (v : A)
| Raise (e : pyexn)
| Complex.

(** The name of the exception class. *)
#[local] Open Scope string_scope.

Definition exn_name (e : pyexn) : String.string :=
  match e with
  | ZeroDivisionError => "ZeroDivisionError"
  | OverflowError => "OverflowError"
  | ValueError => "ValueError"
  end.

#[local] Close Scope string_scope.

Arguments Ok {A} v.
Arguments Raise {A} e.
Arguments Complex {A}.

Definition bind {A B : Type} (c : outcome A) (k : A -> outcome B) : outcome B :=
  match c with
  | Ok v => k v
  | Raise e => Raise e
  | Complex => Complex
  end.

(** How an evaluation ends, whatever value it returns. *)
Definition ending {A : Type} (c : outcome A) : outcome unit :=
  match c with
  | Ok _ => Ok tt
  | Raise e => Raise e
  | Complex => Complex
  end.

Declare Scope py_scope.
Delimit Scope py_scope with py.
Notation "x <- c ;; k" := (bind c (fun x => k))
  (at level 61, c at next level, right associativity) : py_scope.
Local Open Scope py_scope.
Local Open Scope Z_scope.

(** ** The arithmetic interface *)

Class PyFloat (F : Type) : Type := {
  (** [float(n)] for an [int] operand of mixed arithmetic, and whether the
      conversion succeeds (it raises [OverflowError] otherwise). *)
  of_int : Z -> F;
  int_fits : Z -> bool;
  (** [x + y], [x - y], [x * y]: these never raise on floats. *)
  fadd : F -> F -> F;
  fsub : F -> F -> F;
  fmul : F -> F -> F;
  (** The quotient [x / y] once [y] is known to be non-zero. *)
  fdiv : F -> F -> F;
  (** [x == y] and [x > y]. *)
  feqb : F -> F -> bool;
  fgtb : F -> F -> bool;
  (** [x ** y]. *)
  fpow : F -> F -> outcome F;
  (** [round(x)], an [int], and [round(x, 2)], a [float]. *)
  round_int : F -> outcome Z;
  round2 : F -> F
}.

(** ** src/fix.py *)

Section Program.

Context {F : Type} {PF : PyFloat F}.

(** [float(n)] *)
Definition to_float (n : Z) : outcome F :=
  if int_fits n then Ok (of_int n) else Raise OverflowError.

(** [x / y] on floats: Python raises on a zero divisor. *)
Definition truediv (x y : F) : outcome F :=
  if feqb y (of_int 0) then Raise ZeroDivisionError else Ok (fdiv x y).

(** [max(a, b)]: the first argument unless the second is greater. *)
Definition pymax (a b : F) : F := if fgtb b a then b else a.

(** [range(lo, hi)] *)
Definition range (lo hi : Z) : list Z :=
  map (fun i => lo + Z.of_nat i) (seq 0 (Z.to_nat (hi - lo))).

(** {"principal": .., "interest": .., "total": ..} *)
Record simple_result : Type := {
  si_principal : F;
  si_interest : F;
  si_total : F
}.

(** {"principal": .., "amount": .., "interest": ..} *)
Record compound_result : Type := {
  ci_principal : F;
  ci_amount : F;
  ci_interest : F
}.

(** One entry of the amortization schedule. *)
Record row : Type := {
  month : Z;
  payment : F;
  principal_paid : F;
  interest_paid : F;
  remaining_balance : F
}.

(** def simple_interest(principal, rate_percent, time_years) *)
Definition simple_interest (principal rate_percent time_years : F)
  : outcome simple_result :=
  rate <- truediv rate_percent (of_int 100) ;;
  let interest := fmul (fmul principal rate) time_years in
  let total := fadd principal interest in
  Ok {| si_principal := principal; si_interest := interest; si_total := total |}.

(** def compound_interest(principal, rate_percent, time_years, n=1) *)
Definition compound_interest (principal rate_percent time_years : F) (n : Z)
  : outcome compound_result :=
  rate <- truediv rate_percent (of_int 100) ;;
  nf <- to_float n ;;
  per_period <- truediv rate nf ;;
  growth <- fpow (fadd (of_int 1) per_period) (fmul nf time_years) ;;
  let amount := fmul principal growth in
  let interest := fsub amount principal in
  Ok {| ci_principal := principal; ci_amount := amount; ci_interest := interest |}.

(** [annual_rate_percent / 100.0 / 12.0] *)
Definition monthly_rate_of (annual_rate_percent : F) : outcome F :=
  r <- truediv annual_rate_percent (of_int 100) ;;
  truediv r (of_int 12).

(** [int(round(years * 12))] *)
Definition n_payments_of (years : F) : outcome Z :=
  round_int (fmul years (of_int 12)).

(** def monthly_payment(principal, annual_rate_percent, years) *)
Definition monthly_payment (principal annual_rate_percent years : F)
  : outcome F :=
  monthly_rate <- monthly_rate_of annual_rate_percent ;;
  n_payments <- n_payments_of years ;;
  if feqb monthly_rate (of_int 0) then
    nf <- to_float n_payments ;;
    truediv principal nf
  else
    e <- to_float (- n_payments) ;;
    discount <- fpow (fadd (of_int 1) monthly_rate) e ;;
    truediv (fmul principal monthly_rate) (fsub (of_int 1) discount).

(** The body of [for month in range(1, n_payments + 1)], iterated over the
    months that remain; [balance] and [payment] are the two variables the
    loop carries from one iteration to the next. *)
Fixpoint schedule_loop (monthly_rate : F) (months : list Z)
    (balance payment : F) : list row :=
  match months with
  | [] => []
  | month :: rest =>
      let interest := fmul balance monthly_rate in
      let principal_paid := fsub payment interest in
      let clamp := fgtb principal_paid balance in
      let principal_paid := if clamp then balance else principal_paid in
      let payment := if clamp then fadd interest principal_paid else payment in
      let balance := fsub balance principal_paid in
      {| month := month;
         payment := round2 payment;
         principal_paid := round2 principal_paid;
         interest_paid := round2 interest;
         remaining_balance := round2 (pymax balance (of_int 0)) |}
      :: schedule_loop monthly_rate rest balance payment
  end.

(** def amortization_schedule(principal, annual_rate_percent, years) *)
Definition amortization_schedule (principal annual_rate_percent years : F)
  : outcome (list row) :=
  monthly_rate <- monthly_rate_of annual_rate_percent ;;
  n_payments <- n_payments_of years ;;
  payment <- monthly_payment principal annual_rate_percent years ;;
  Ok (schedule_loop monthly_rate (range 1 (n_payments + 1)) principal payment).

(** *** What the claims observe of a schedule *)

(** The [remaining_balance] of the last row. *)
Definition final_balance (rows : list row) : option F :=
  match rev rows with
  | r :: _ => Some (remaining_balance r)
  | [] => None
  end.

(** [sum(r["principal_paid"] for r in schedule)] *)
Definition sum_principal_paid (rows : list row) : F :=
  fold_left fadd (map principal_paid rows) (of_int 0).

(** A row with [round(., 2)] applied to its four amounts. *)
Definition round_row (r : row) : row :=
  {| month := month r;
     payment := round2 (payment r);
     principal_paid := round2 (principal_paid r);
     interest_paid := round2 (interest_paid r);
     remaining_balance := round2 (remaining_balance r) |}.

(** The balance a row starts from: the principal for the first row, the
    balance the row before it left otherwise. *)
Definition opening_balance (principal : F) (before : list row) : F :=
  last (map remaining_balance before) principal.

(** The test [principal_paid > balance] of the loop body, for the payment
    [pay] at the balance [balance]. *)
Definition correction_due (monthly_rate pay balance : F) : bool :=
  fgtb (fsub pay (fmul balance monthly_rate)) balance.

End Program.

(** The arithmetic [PF] with [round(x, 2)] replaced by the identity: the
    schedule it produces holds the amounts before they are rounded. *)
Definition unrounded {F : Type} (PF : PyFloat F) : PyFloat F :=
  {| of_int := of_int;
     int_fits := int_fits;
     fadd := fadd;
     fsub := fsub;
     fmul := fmul;
     fdiv := fdiv;
     feqb := feqb;
     fgtb := fgtb;
     fpow := fpow;
     round_int := round_int;
     round2 := fun x => x |}.

Arguments simple_result F : clear implicits.
Arguments compound_result F : clear implicits.
Arguments row F : clear implicits.

(** ** IEEE 754 binary64, as CPython computes *)

Module Binary64.

Local Open Scope float_scope.

(** The integer nearest to [m * 2^e] for [0 <= m], ties to the even one. *)
Definition nearest_even (m e : Z) : Z :=
  if (0 <=? e)%Z then (m * 2 ^ e)%Z
  else
    let d := (2 ^ (- e))%Z in
    let q := (m / d)%Z in
    match (2 * (m mod d) ?= d)%Z with
    | Lt => q
    | Eq => if Z.even q then q else (q + 1)%Z
    | Gt => (q + 1)%Z
    end.

(** The value of [x * 2^j] when it is an integer. *)
Definition scaled_integer_value (j : Z) (x : float) : option Z :=
  match Prim2SF x with
  | S754_zero _ => Some 0%Z
  | S754_finite s m e =>
      let e' := (e + j)%Z in
      if (0 <=? e')%Z then Some (cond_Zopp s (Zpos m * 2 ^ e'))
      else if (Zpos m mod 2 ^ (- e') =? 0)%Z
           then Some (cond_Zopp s (Zpos m / 2 ^ (- e')))
           else None
  | _ => None
  end.

(** The value of a float when it is an integer. *)
Definition integer_value (x : float) : option Z := scaled_integer_value 0 x.

(** [x] is exactly [k + 1/2]: twice [x] is the odd integer [2k + 1]. *)
Definition halfway (x : float) (k : Z) : Prop :=
  scaled_integer_value 1 x = Some (2 * k + 1)%Z.

(** [abs(x - y) <= tol], as a test would check a tolerance. *)
Definition within (x y tol : float) : bool := abs (x - y) <=? tol.

Definition is_integer (x : float) : bool :=
  match integer_value x with Some _ => true | None => false end.

Definition is_odd_integer (x : float) : bool :=
  match integer_value x with Some z => Z.odd z | None => false end.

(** [float(n)]: the nearest double, ties to even. *)
Definition float_of_int (n : Z) : float :=
  SF2Prim (binary_normalize prec emax n 0 false).

(** [float(n)] raises OverflowError when [n] rounds beyond the largest
    double. *)
Definition int_fits_float (n : Z) : bool := negb (is_infinity (float_of_int n)).

(** The double nearest to [n / d], for [d > 0]. *)
Definition nearest_quotient (s : bool) (n : Z) (d : positive) : float :=
  match n with
  | Zpos p => SF2Prim (SFdiv prec emax (S754_finite s p 0) (S754_finite false d 0))
  | _ => if s then neg_zero else zero
  end.

(** [round(x)]: [float.__round__] without [ndigits] rounds half to even
    and converts to [int]; NaN and the infinities cannot be converted. *)
Definition round_to_int (x : float) : outcome Z :=
  match Prim2SF x with
  | S754_nan => Raise ValueError
  | S754_infinity _ => Raise OverflowError
  | S754_zero _ => Ok 0%Z
  | S754_finite s m e => Ok (cond_Zopp s (nearest_even (Zpos m) e))
  end.

(** [round(x, 2)]: the decimal with two fractional digits nearest to the
    exact value of [x] (ties to even), converted back to the nearest
    double; NaN, infinities and zeros round to themselves. *)
Definition round_2 (x : float) : float :=
  match Prim2SF x with
  | S754_finite s m e => nearest_quotient s (nearest_even (100 * Zpos m) e) 100
  | _ => x
  end.

Section WithLibm.

(** The C library's [pow], called by [float_pow] on finite arguments with
    a positive base other than 1 and a non-zero exponent. *)
Variable libm_pow : float -> float -> float.

(** CPython's [float_pow] (Objects/floatobject.c): the special cases are
    sorted out before [pow] is called, and an infinite result of [pow]
    raises OverflowError. *)
Definition float_pow (v w : float) : outcome float :=
  if w =? 0 then Ok 1
  else if is_nan v then Ok v
  else if is_nan w then Ok (if v =? 1 then 1 else w)
  else if is_infinity w then
    let a := abs v in
    if a =? 1 then Ok 1
    else if Bool.eqb (0 <? w) (1 <? a) then Ok infinity
    else Ok 0
  else if is_infinity v then
    let odd := is_odd_integer w in
    if 0 <? w then Ok (if odd then v else abs v)
    else Ok (if odd then (if v <? 0 then neg_zero else zero) else 0)
  else if v =? 0 then
    if w <? 0 then Raise ZeroDivisionError
    else Ok (if is_odd_integer w then v else 0)
  else if (v <? 0) && negb (is_integer w) then Complex
  else
    let negate := (v <? 0) && is_odd_integer w in
    let a := abs v in
    if a =? 1 then Ok (if negate then -1 else 1)
    else
      let ix := libm_pow a w in
      if is_infinity ix then Raise OverflowError
      else Ok (if negate then - ix else ix).

#[export] Instance binary64 : PyFloat float := {
  of_int := float_of_int;
  int_fits := int_fits_float;
  fadd := PrimFloat.add;
  fsub := PrimFloat.sub;
  fmul := PrimFloat.mul;
  fdiv := PrimFloat.div;
  feqb := PrimFloat.eqb;
  fgtb := fun x y => PrimFloat.ltb y x;
  fpow := float_pow;
  round_int := round_to_int;
  round2 := round_2
}.

End WithLibm.

(** [m = m' * 2^t] with [m'] odd. *)
Fixpoint odd_part (m : positive) : positive * Z :=
  match m with
  | xO p => let '(q, t) := odd_part p in (q, (t + 1)%Z)
  | _ => (m, 0%Z)
  end.

(** A reference [pow]: for an exponent that is an integer the exact power
    of the base, rounded once to the nearest double.  (A C library's [pow]
    agrees with it up to the last bit.)  Other exponents are outside the
    reference. *)
Definition exact_power (x : float) (n : Z) : float :=
  match Prim2SF x, n with
  | S754_finite s m e, Zpos p =>
      let '(m', t) := odd_part m in
      SF2Prim (binary_normalize prec emax
                 (cond_Zopp (s && Z.odd n) (Zpos m' ^ n)) ((e + t) * n) false)
  | S754_finite s m e, Zneg p =>
      let '(m', t) := odd_part m in
      let k := ((e + t) * Zpos p)%Z in
      nearest_quotient (s && Z.odd n) (2 ^ Z.max 0 (- k))
        (Z.to_pos (Zpos m' ^ Zpos p * 2 ^ Z.max 0 k))
  | _, _ => nan
  end.

Definition pow_ref (x y : float) : float :=
  match integer_value y with
  | Some n => exact_power x n
  | None => nan
  end.

(** The arithmetic the examples below are evaluated in. *)
Definition py : PyFloat float := binary64 pow_ref.

End Binary64.

(** ** The same operations over the reals *)

Module Exact.

Local Open Scope R_scope.

Definition Req_bool (x y : R) : bool := if Req_dec_T x y then true else false.

Definition Rgt_bool (x y : R) : bool := if Rlt_dec y x then true else false.

(** The integer nearest to [x], ties to the even one. *)
Definition round_half_even (x : R) : Z :=
  let f := Zfloor x in
  if Rlt_dec (x - IZR f) (1 / 2) then f
  else if Rlt_dec (1 / 2) (x - IZR f) then (f + 1)%Z
  else if Z.even f then f else (f + 1)%Z.

(** [round(x, 2)] *)
Definition round_cents (x : R) : R := IZR (round_half_even (100 * x)) / 100.

Definition is_integer (x : R) : bool := Req_bool (IZR (Zfloor x)) x.

(** [x ** y]: the cases of [float_pow] that remain without NaN, infinities
    and overflow. *)
Definition real_pow (x y : R) : outcome R :=
  if Req_bool y 0 then Ok 1
  else if Req_bool x 0 then
    if Rlt_dec y 0 then Raise ZeroDivisionError else Ok 0
  else if is_integer y then Ok (powerRZ x (Zfloor y))
  else if Rlt_dec x 0 then Complex
  else Ok (Rpower x y).

#[export] Instance exact : PyFloat R := {
  of_int := IZR;
  int_fits := fun _ => true;
  fadd := Rplus;
  fsub := Rminus;
  fmul := Rmult;
  fdiv := Rdiv;
  feqb := Req_bool;
  fgtb := Rgt_bool;
  fpow := real_pow;
  round_int := fun x => Ok (round_half_even x);
  round2 := round_cents
}.

(** The present value of [j] payments of 1 at the growth factor [q] per
    period: [1/q + 1/q^2 + ... + 1/q^j]. *)
Fixpoint annuity (q : R) (j : nat) : R :=
  match j with
  | O => 0
  | S j' => (1 + annuity q j') / q
  end.

(** The schedule of a loan whose balance is [pay * annuity q j] when [j]
    months remain: the closed form of what [schedule_loop] computes. *)
Fixpoint amortized_rows (monthly_rate pay : R) (months : list Z) : list (row R) :=
  match months with
  | [] => []
  | k :: rest =>
      let q := 1 + monthly_rate in
      let j := length rest in
      {| month := k;
         payment := round_cents pay;
         principal_paid := round_cents (pay * annuity q (S j) - pay * annuity q j);
         interest_paid := round_cents (pay * annuity q (S j) * monthly_rate);
         remaining_balance := round_cents (pay * annuity q j) |}
      :: amortized_rows monthly_rate pay rest
  end.

(** LoanTerms of the data model: positive principal, non-negative rate, and
    a period count [n >= 1] derived from the years. *)
Definition valid_terms (principal annual_rate_percent years : R) (n : Z) : Prop :=
  0 < principal /\ 0 <= annual_rate_percent /\
  n_payments_of years = Ok n /\ (1 <= n)%Z.

End Exact.

(** ** Signs of binary64 values *)

(** [+0] or a positive finite value. *)
Definition nonneg_finite (x : spec_float) : Prop :=
  match x with
  | S754_zero false | S754_finite false _ _ => True
  | _ => False
  end.

(** A value that is not NaN and has the sign bit [s]. *)
Definition has_sign (s : bool) (x : spec_float) : Prop :=
  match x with
  | S754_zero s' | S754_infinity s' | S754_finite s' _ _ => s' = s
  | S754_nan => False
  end.

(** A value that is not NaN. *)
Definition is_number (x : spec_float) : Prop :=
  match x with S754_nan => False | _ => True end.

(** NaN, or a value without the sign bit. *)
Definition unsigned (x : spec_float) : Prop := x = S754_nan \/ has_sign false x.

(** A zero of either sign or a positive finite value. *)
Definition finite_rate (x : spec_float) : Prop :=
  match x with
  | S754_zero _ | S754_finite false _ _ => True
  | _ => False
  end.

(** ** The command line (src/fix.py, export_schedule_to_csv to main) *)

(** How a run stops short of returning: an exception of the arithmetic or
    of [float()] / [int()], an OSError of [open()] or of a later operation on
    the file (FileNotFoundError, PermissionError, IsADirectoryError, ...),
    EOFError from [input], [sys.exit(code)], a [complex] value the model does
    not follow, or a loop still running when the fuel is spent. *)
Inductive stop : Type :=
| Uncaught (e : pyexn)
| OSError
| EndOfInput
| SystemExit (code : Z)
| NotFollowed
| Running.

Inductive result (A : Type) : Type :=
| Done (a : A)
| Stop (s : stop).

Arguments Done {A} a.
Arguments Stop {A} s.

(** --mode *)
Inductive mode : Type := Simple | Compound | Loan | Amortization.

Declare Scope io_scope.
Delimit Scope io_scope with io.

Section CommandLine.

Context {F : Type} {PF : PyFloat F}.

(** [float(s)] and [int(s)] on a line of input; [None] when Python raises
    ValueError. *)
Variable parse_float : String.string -> option F.
Variable parse_int : String.string -> option Z.

(** A part of a printed line: literal text, [format_currency(x)], a float or
    an int placed in an f-string as it is. *)
Inductive piece : Type :=
| Text (s : String.string)
| Money (x : F)
| Shown (x : F)
| Number (n : Z).

(** A field of a CSV record. *)
Inductive cell : Type :=
| CText (s : String.string)
| CInt (n : Z)
| CFloat (x : F).

(** What the program does to the outside, in order. *)
Inductive event : Type :=
| Printed (line : list piece)
| PrintedRow (r : row F)
| Prompt (s : String.string)
| Usage (message : String.string)
| Help
| FileOpen (filename : String.string)
| FileRow (cells : list cell)
| FileClose.

(** Whether the operating system carries out an operation on the file,
    after the events so far: [open()] fails on an empty name, a missing
    directory or a file that may not be written, and a write or the closing
    of the file can fail as well. *)
Variable os_accepts : list event -> event -> bool.

(** The lines still to be read on standard input and the events so far. *)
Record world : Type := {
  stdin : list String.string;
  trace : list event
}.

Definition io (A : Type) : Type := world -> world * result A.

Definition ret {A : Type} (a : A) : io A := fun w => (w, Done a).

Definition halt {A : Type} (s : stop) : io A := fun w => (w, Stop s).

Definition bind_io {A B : Type} (c : io A) (k : A -> io B) : io B :=
  fun w =>
    match c w with
    | (w', Done a) => k a w'
    | (w', Stop s) => (w', Stop s)
    end.

Definition emit (e : event) : io unit :=
  fun w => ({| stdin := stdin w; trace := trace w ++ [e] |}, Done tt).

(** An operation on the file: it raises OSError when the operating system
    refuses it. *)
Definition file_op (e : event) : io unit :=
  fun w => if os_accepts (trace w) e then emit e w else (w, Stop OSError).

(** The value of a calculator, or the exception it raised. *)
Definition lift {A : Type} (c : outcome A) : io A :=
  match c with
  | Ok v => ret v
  | Raise e => halt (Uncaught e)
  | Complex => halt NotFollowed
  end.

(** [input(prompt)] *)
Definition input (prompt : String.string) : io String.string :=
  fun w =>
    match stdin w with
    | [] => ({| stdin := []; trace := trace w ++ [Prompt prompt] |}, Stop EndOfInput)
    | line :: rest => ({| stdin := rest; trace := trace w ++ [Prompt prompt] |}, Done line)
    end.

Notation "x <- c ;; k" := (bind_io c (fun x => k))
  (at level 61, c at next level, right associativity) : io_scope.
Notation "c ;; k" := (bind_io c (fun _ => k))
  (at level 61, right associativity) : io_scope.
Local Open Scope io_scope.
Local Open Scope string_scope.

(** [print(text)] *)
Definition print (line : list piece) : io unit := emit (Printed line).

(** [float(input(prompt))] and [int(input(prompt))] *)
Definition input_float (prompt : String.string) : io F :=
  s <- input prompt ;;
  match parse_float s with
  | Some x => ret x
  | None => halt (Uncaught ValueError)
  end.

Definition input_int (prompt : String.string) : io Z :=
  s <- input prompt ;;
  match parse_int s with
  | Some n => ret n
  | None => halt (Uncaught ValueError)
  end.

(** *** export_schedule_to_csv *)

Definition fieldnames : list String.string :=
  ["month"; "payment"; "principal_paid"; "interest_paid"; "remaining_balance"].

(** The dict that amortization_schedule appends for a row. *)
Definition row_dict (r : row F) : list (String.string * cell) :=
  [("month", CInt (month r));
   ("payment", CFloat (payment r));
   ("principal_paid", CFloat (principal_paid r));
   ("interest_paid", CFloat (interest_paid r));
   ("remaining_balance", CFloat (remaining_balance r))].

Definition has_name (names : list String.string) (key : String.string) : bool :=
  existsb (String.eqb key) names.

Fixpoint get (d : list (String.string * cell)) (key : String.string) : option cell :=
  match d with
  | [] => None
  | (k, v) :: rest => if String.eqb k key then Some v else get rest key
  end.

(** csv.DictWriter._dict_to_list: a key outside the field names raises
    ValueError; a field name the dict lacks is written as the empty string. *)
Definition dict_to_list (names : list String.string) (d : list (String.string * cell))
  : outcome (list cell) :=
  if forallb (fun kv => has_name names (fst kv)) d
  then Ok (map (fun key => match get d key with Some v => v | None => CText "" end) names)
  else Raise ValueError.

(** [for row in schedule: writer.writerow(row)] *)
Fixpoint write_rows (schedule : list (row F)) : io unit :=
  match schedule with
  | [] => ret tt
  | r :: rest =>
      cells <- lift (dict_to_list fieldnames (row_dict r)) ;;
      file_op (FileRow cells) ;;
      write_rows rest
  end.

(** [with open(filename, "w", newline="") as f: body].  When [open()]
    raises, the body does not run.  Otherwise the file is closed however the
    body ends, and an error of the closing replaces the way the body
    ended. *)
Definition with_open (filename : String.string) (body : io unit) : io unit :=
  fun w =>
    match file_op (FileOpen filename) w with
    | (w1, Done _) =>
        match body w1 with
        | (w2, r) =>
            match file_op FileClose w2 with
            | (w3, Done _) => (w3, r)
            | (w3, Stop s) => (w3, Stop s)
            end
        end
    | (w1, Stop s) => (w1, Stop s)
    end.

(** def export_schedule_to_csv(schedule, filename) *)
Definition export_schedule_to_csv (schedule : list (row F)) (filename : String.string)
  : io unit :=
  with_open filename
    (file_op (FileRow (map CText fieldnames)) ;;
     write_rows schedule).

(** *** interactive_menu *)

Definition menu_1 : io unit :=
  p <- input_float "Principal: " ;;
  r <- input_float "Annual rate (%, e.g. 5): " ;;
  t <- input_float "Time (years): " ;;
  res <- lift (simple_interest p r t) ;;
  print [Text "Interest: "; Money (si_interest res)] ;;
  print [Text "Total amount: "; Money (si_total res)].

Definition menu_2 : io unit :=
  p <- input_float "Principal: " ;;
  r <- input_float "Annual rate (%, e.g. 5): " ;;
  t <- input_float "Time (years): " ;;
  n <- input_int "Compounding per year (1=annual,12=monthly): " ;;
  res <- lift (compound_interest p r t n) ;;
  print [Text "Amount: "; Money (ci_amount res)] ;;
  print [Text "Interest earned: "; Money (ci_interest res)].

Definition menu_3 : io unit :=
  p <- input_float "Loan principal: " ;;
  r <- input_float "Annual rate (%, e.g. 3.5): " ;;
  y <- input_float "Years: " ;;
  m <- lift (monthly_payment p r y) ;;
  print [Text "Monthly payment: "; Money m] ;;
  print [Text "Total paid over "; Shown y; Text " years: ";
         Money (fmul (fmul m y) (of_int 12))].

Definition menu_4 : io unit :=
  p <- input_float "Loan principal: " ;;
  r <- input_float "Annual rate (%, e.g. 3.5): " ;;
  y <- input_float "Years: " ;;
  out <- input "CSV filename to export (e.g. schedule.csv): " ;;
  sched <- lift (amortization_schedule p r y) ;;
  export_schedule_to_csv sched out ;;
  print [Text "Schedule exported to "; Text out; Text " (rows: ";
         Number (Z.of_nat (length sched)); Text ")"].

(** def interactive_menu() *)
Definition interactive_menu : io unit :=
  print [Text "Fixed Interest Calculator - Interactive Mode"] ;;
  print [Text "Choose an option:"] ;;
  print [Text " 1) Simple Interest"] ;;
  print [Text " 2) Compound Interest"] ;;
  print [Text " 3) Loan monthly payment"] ;;
  print [Text " 4) Amortization schedule (exportable)"] ;;
  print [Text " 0) Exit"] ;;
  choice <- input "Enter choice: " ;;
  match parse_int choice with
  | None => print [Text "Invalid choice"]
  | Some choice =>
      if choice =? 1 then menu_1
      else if choice =? 2 then menu_2
      else if choice =? 3 then menu_3
      else if choice =? 4 then menu_4
      else if choice =? 0 then print [Text "Goodbye"] ;; halt (SystemExit 0)
      else print [Text "Invalid choice"]
  end.

(** *** main *)

(** The namespace that parse_args returns; an option that was not given is
    None, and --n defaults to 1. *)
Record args : Type := {
  a_mode : option mode;
  a_principal : option F;
  a_rate : option F;
  a_time : option F;
  a_n : Z;
  a_years : option F;
  a_out : option String.string
}.

(** [parser.error(message)]: usage and message on standard error, exit
    status 2. *)
Definition parser_error {A : Type} (message : String.string) : io A :=
  emit (Usage message) ;; halt (SystemExit 2).

(** [while True: interactive_menu()], for at most [fuel] rounds. *)
Fixpoint menu_loop (fuel : nat) : io unit :=
  match fuel with
  | O => halt Running
  | S fuel' => interactive_menu ;; menu_loop fuel'
  end.

Definition main_simple (a : args) : io unit :=
  match a_principal a, a_rate a, a_time a with
  | Some principal, Some rate, Some time =>
      res <- lift (simple_interest principal rate time) ;;
      print [Text "Simple Interest Result"] ;;
      print [Text "Principal: "; Money (si_principal res)] ;;
      print [Text "Interest: "; Money (si_interest res)] ;;
      print [Text "Total: "; Money (si_total res)]
  | _, _, _ => parser_error "--principal, --rate and --time are required for simple mode"
  end.

Definition main_compound (a : args) : io unit :=
  match a_principal a, a_rate a, a_time a with
  | Some principal, Some rate, Some time =>
      res <- lift (compound_interest principal rate time (a_n a)) ;;
      print [Text "Compound Interest Result"] ;;
      print [Text "Principal: "; Money (ci_principal res)] ;;
      print [Text "Amount: "; Money (ci_amount res)] ;;
      print [Text "Interest earned: "; Money (ci_interest res)]
  | _, _, _ => parser_error "--principal, --rate and --time are required for compound mode"
  end.

Definition main_loan (a : args) : io unit :=
  match a_principal a, a_rate a, a_years a with
  | Some principal, Some rate, Some years =>
      m <- lift (monthly_payment principal rate years) ;;
      let total := fmul (fmul m years) (of_int 12) in
      print [Text "Loan Payment Result"] ;;
      print [Text "Principal: "; Money principal] ;;
      print [Text "Monthly payment: "; Money m] ;;
      print [Text "Total paid: "; Money total] ;;
      print [Text "Total interest paid: "; Money (fsub total principal)]
  | _, _, _ => parser_error "--principal, --rate and --years are required for loan mode"
  end.

(** [if args.out:] holds for a file name that is not the empty string. *)
Definition given (out : option String.string) : option String.string :=
  match out with
  | Some name => if String.eqb name "" then None else Some name
  | None => None
  end.

Definition main_amortization (a : args) : io unit :=
  match a_principal a, a_rate a, a_years a with
  | Some principal, Some rate, Some years =>
      sched <- lift (amortization_schedule principal rate years) ;;
      match given (a_out a) with
      | Some out =>
          export_schedule_to_csv sched out ;;
          print [Text "Exported amortization schedule to "; Text out]
      | None =>
          print [Text "Amortization schedule (first 12 rows):"] ;;
          fold_right (fun r k => emit (PrintedRow r) ;; k) (ret tt) (firstn 12 sched) ;;
          print [Text "... total months: "; Number (Z.of_nat (length sched))]
      end
  | _, _, _ => parser_error "--principal, --rate and --years are required for amortization mode"
  end.

(** What [parser.parse_args(argv)] makes of the command line: the
    namespace; or a command line it rejects itself, through [parser.error],
    for an option it does not know, a value that [float] or [int] rejects or
    a mode outside the choices; or [-h], which prints the help and exits
    with status 0. *)
Inductive parsed : Type :=
| Namespace (a : args)
| Rejected (message : String.string)
| HelpRequested.

(** def main(argv=None).  [no_arguments] is [len(sys.argv) == 1].  A round
    of the menu that returns has read a line, so one round more than there
    are lines is all the loop can take. *)
Definition main (no_arguments : bool) (p : parsed) : io unit :=
  match p with
  | Rejected message => parser_error message
  | HelpRequested => emit Help ;; halt (SystemExit 0)
  | Namespace a =>
      fun w =>
        if no_arguments then
          match menu_loop (S (length (stdin w))) w with
          | (w', Stop EndOfInput) =>
              (print [Text (String.String (Ascii.ascii_of_nat 10) "Exiting")] ;;
               halt (SystemExit 0)) w'
          | other => other
          end
        else
          match a_mode a with
          | Some Simple => main_simple a w
          | Some Compound => main_compound a w
          | Some Loan => main_loan a w
          | Some Amortization => main_amortization a w
          | None => emit Help w
          end
  end.

End CommandLine.

Arguments piece F : clear implicits.
Arguments cell F : clear implicits.
Arguments event F : clear implicits.
Arguments world F : clear implicits.
Arguments io F A : clear implicits.
Arguments args F : clear implicits.
Arguments parsed F : clear implicits.

(** *** What the facts below observe of a run *)

Section Observations.

Context {F : Type} {PF : PyFloat F}.
Variable parse_int : String.string -> option Z.
Variable os_accepts : list (event F) -> event F -> bool.

Local Open Scope string_scope.

(** The CSV record of a schedule row. *)
Definition csv_record (r : row F) : list (cell F) :=
  [CInt (month r); CFloat (payment r); CFloat (principal_paid r);
   CFloat (interest_paid r); CFloat (remaining_balance r)].

(** The header and one record per row: what a complete export writes
    between the opening and the closing of the file. *)
Definition csv_records (sched : list (row F)) : list (event F) :=
  FileRow (map (@CText F) fieldnames) :: map (fun r => FileRow (csv_record r)) sched.

(** The operations of [ops] that the operating system carries out, one after
    the other from the trace [t], up to the first it refuses. *)
Fixpoint written (t : list (event F)) (ops : list (event F)) : list (event F) :=
  match ops with
  | [] => []
  | e :: rest => if os_accepts t e then e :: written (t ++ [e]) rest else []
  end.

(** The operating system carries out every operation of [ops]. *)
Fixpoint accepted (t : list (event F)) (ops : list (event F)) : bool :=
  match ops with
  | [] => true
  | e :: rest => os_accepts t e && accepted (t ++ [e]) rest
  end.

(** What main shows in amortization mode. *)
Definition amortization_output (out : option String.string) (sched : list (row F))
  : list (event F) :=
  match given out with
  | Some name =>
      FileOpen name :: csv_records sched
      ++ [FileClose; Printed [Text "Exported amortization schedule to "; Text name]]
  | None =>
      [Printed [Text "Amortization schedule (first 12 rows):"]]
      ++ map (@PrintedRow F) (firstn 12 sched)
      ++ [Printed [Text "... total months: "; Number (Z.of_nat (length sched))]]
  end.


(** The menu that interactive_menu prints before it asks for a choice. *)
Definition menu_text : list (event F) :=
  [Printed [Text "Fixed Interest Calculator - Interactive Mode"];
   Printed [Text "Choose an option:"];
   Printed [Text " 1) Simple Interest"];
   Printed [Text " 2) Compound Interest"];
   Printed [Text " 3) Loan monthly payment"];
   Printed [Text " 4) Amortization schedule (exportable)"];
   Printed [Text " 0) Exit"]].

(** An action reads lines but never adds one. *)
Definition frugal {A : Type} (c : io F A) : Prop :=
  forall w, (length (stdin (fst (c w))) <= length (stdin w))%nat.

(** An action that returns has read a line. *)
Definition reads {A : Type} (c : io F A) : Prop :=
  forall w w' a, c w = (w', Done a) -> (length (stdin w') < length (stdin w))%nat.

(** An action stops only on an exception of a calculator, of a conversion
    or of the file, at the end of the input, or by [sys.exit(0)]. *)
Definition ends_well (s : stop) : Prop :=
  match s with
  | Uncaught _ | OSError | EndOfInput | NotFollowed => True
  | SystemExit code => code = 0
  | Running => False
  end.

Definition tame {A : Type} (c : io F A) : Prop :=
  forall w w' s, c w = (w', Stop s) -> ends_well s.

(** The line typed at the menu is not one of the choices 0 to 4. *)
Definition invalid_choice (line : String.string) : Prop :=
  match parse_int line with
  | None => True
  | Some c => c < 0 \/ 4 < c
  end.

(** The prompt that follows a choice of 1 to 4. *)
Definition first_prompt (choice : Z) : String.string :=
  if choice <=? 2 then "Principal: " else "Loan principal: ".

End Observations.


(** * Facts *)

(** ** Facts that hold in every arithmetic *)

Section Generic.

Context {F : Type} (PF : PyFloat F).

Lemma schedule_loop_length (mr : F) (months : list Z) :
  forall balance pay, length (schedule_loop mr months balance pay) = length months.
Proof.
  induction months as [|k rest IH]; intros; simpl; [reflexivity|].
  now rewrite IH.
Qed.

Lemma range_length (lo hi : Z) : length (range lo hi) = Z.to_nat (hi - lo).
Proof. unfold range. now rewrite length_map, length_seq. Qed.



Lemma schedule_loop_unrounded (mr : F) (months : list Z) :
  forall balance pay,
    schedule_loop (PF := PF) mr months balance pay
    = map (round_row (PF := PF))
        (schedule_loop (PF := unrounded PF) mr months balance pay).
Proof.
  induction months as [|k rest IH]; intros; [reflexivity|].
  cbn [schedule_loop map]. rewrite IH. reflexivity.
Qed.

(** The final-payment correction, in every arithmetic: an iteration whose
    [payment - interest] exceeds the balance writes the balance as
    principal_paid and [interest + balance] as payment, clears the balance,
    and hands the recomputed payment to the iterations that follow; any other
    iteration writes the payment it received and hands it on unchanged. *)
Lemma schedule_loop_step (mr : F) (k : Z) (rest : list Z) (balance pay : F) :
  let interest := fmul balance mr in
  exists r balance' pay',
    schedule_loop mr (k :: rest) balance pay
    = r :: schedule_loop mr rest balance' pay'
    /\ interest_paid r = round2 interest
    /\ if fgtb (fsub pay interest) balance
       then principal_paid r = round2 balance
            /\ payment r = round2 (fadd interest balance)
            /\ balance' = fsub balance balance
            /\ pay' = fadd interest balance
       else principal_paid r = round2 (fsub pay interest)
            /\ payment r = round2 pay
            /\ balance' = fsub balance (fsub pay interest)
            /\ pay' = pay.
Proof.
  intros interest. cbn [schedule_loop]. fold interest.
  destruct (fgtb (fsub pay interest) balance);
    eexists _, _, _; repeat split; reflexivity.
Qed.

(** C7 (as the code has it): rounding to two decimals happens only when a row
    is written.  In every arithmetic the schedule is the schedule computed
    without any rounding, with [round(., 2)] then applied to the four amounts
    of each row: the balance carried from one period to the next, and so the
    interest of the next period, never passes through [round]. *)
Theorem rounding_only_at_emission (principal rate years : F) :
  amortization_schedule (PF := PF) principal rate years
  = (rows <- amortization_schedule (PF := unrounded PF) principal rate years ;;
     Ok (map (round_row (PF := PF)) rows)).
Proof.
  unfold amortization_schedule.
  change (monthly_rate_of (PF := unrounded PF) rate) with (monthly_rate_of (PF := PF) rate).
  change (n_payments_of (PF := unrounded PF) years) with (n_payments_of (PF := PF) years).
  change (monthly_payment (PF := unrounded PF) principal rate years)
    with (monthly_payment (PF := PF) principal rate years).
  destruct (monthly_rate_of rate) as [mr|e|]; cbn [bind]; try reflexivity.
  destruct (n_payments_of years) as [n|e|]; cbn [bind]; try reflexivity.
  destruct (monthly_payment principal rate years) as [pay|e|]; cbn [bind]; try reflexivity.
  now rewrite schedule_loop_unrounded.
Qed.
End Generic.

(** ** Facts of the exact arithmetic *)

Section ExactFacts.

Import Exact.
Local Open Scope R_scope.

Ltac exact_ops :=
  cbn [of_int int_fits fadd fsub fmul fdiv feqb fgtb fpow round_int round2 exact].

Lemma Req_bool_true (x y : R) : x = y -> Req_bool x y = true.
Proof. intros H. unfold Req_bool. destruct (Req_dec_T x y); [reflexivity|contradiction]. Qed.

Lemma Req_bool_false (x y : R) : x <> y -> Req_bool x y = false.
Proof. intros H. unfold Req_bool. destruct (Req_dec_T x y); [contradiction|reflexivity]. Qed.

Lemma Rgt_bool_false (x y : R) : x <= y -> Rgt_bool x y = false.
Proof. intros H. unfold Rgt_bool. destruct (Rlt_dec y x); [lra|reflexivity]. Qed.

Lemma Rgt_bool_true (x y : R) : y < x -> Rgt_bool x y = true.
Proof. intros H. unfold Rgt_bool. destruct (Rlt_dec y x); [reflexivity|lra]. Qed.

Lemma truediv_nonzero (x y : R) : y <> 0 -> truediv x y = Ok (x / y).
Proof. intros H. unfold truediv. simpl. now rewrite Req_bool_false. Qed.

Lemma truediv_zero (x : R) : truediv x 0 = Raise ZeroDivisionError.
Proof. unfold truediv. simpl. now rewrite Req_bool_true. Qed.

Lemma monthly_rate_of_exact (rate : R) : monthly_rate_of rate = Ok (rate / 100 / 12).
Proof.
  unfold monthly_rate_of. rewrite truediv_nonzero by (simpl; lra). simpl.
  rewrite truediv_nonzero by (simpl; lra). reflexivity.
Qed.

(** Rounding *)

Lemma round_half_even_bounds (x : R) :
  IZR (round_half_even x) - 1 / 2 <= x <= IZR (round_half_even x) + 1 / 2.
Proof.
  unfold round_half_even. pose proof (Zfloor_bound x) as Hb.
  destruct (Rlt_dec (x - IZR (Zfloor x)) (1 / 2)); [lra|].
  destruct (Rlt_dec (1 / 2) (x - IZR (Zfloor x))).
  - rewrite plus_IZR. lra.
  - destruct (Z.even (Zfloor x)); [lra|rewrite plus_IZR; lra].
Qed.

Lemma round_half_even_IZR (k : Z) : round_half_even (IZR k) = k.
Proof.
  unfold round_half_even. rewrite ZfloorZ.
  destruct (Rlt_dec (IZR k - IZR k) (1 / 2)); [reflexivity|lra].
Qed.

Lemma round_half_even_mono (x y : R) :
  x <= y -> (round_half_even x <= round_half_even y)%Z.
Proof.
  intros Hxy. pose proof (Zfloor_le _ _ Hxy) as Hf.
  pose proof (Zfloor_bound x) as Hx. pose proof (Zfloor_bound y) as Hy.
  assert (Hlo : forall z, (Zfloor z <= round_half_even z <= Zfloor z + 1)%Z).
  { intros z. unfold round_half_even.
    destruct (Rlt_dec _ _); [lia|]. destruct (Rlt_dec _ _); [lia|].
    destruct (Z.even _); lia. }
  destruct (Z.eq_dec (Zfloor x) (Zfloor y)) as [E|NE].
  - unfold round_half_even. rewrite <- E.
    destruct (Rlt_dec (x - IZR (Zfloor x)) (1 / 2)).
    + destruct (Rlt_dec (y - IZR (Zfloor x)) (1 / 2)); [lia|].
      destruct (Rlt_dec _ _); [lia|]. destruct (Z.even _); lia.
    + destruct (Rlt_dec (y - IZR (Zfloor x)) (1 / 2)); [lra|].
      destruct (Rlt_dec (1 / 2) (x - IZR (Zfloor x))).
      * destruct (Rlt_dec (1 / 2) (y - IZR (Zfloor x))); [lia|lra].
      * destruct (Rlt_dec (1 / 2) (y - IZR (Zfloor x))); destruct (Z.even _); lia.
  - pose proof (Hlo x). pose proof (Hlo y). lia.
Qed.


Lemma round_cents_mono (x y : R) : x <= y -> round_cents x <= round_cents y.
Proof.
  intros H. unfold round_cents.
  assert (H100 : 100 * x <= 100 * y) by lra.
  apply round_half_even_mono in H100. apply IZR_le in H100. lra.
Qed.



(** Annuity factor *)

Lemma annuity_nonneg (q : R) (j : nat) : 0 < q -> 0 <= annuity q j.
Proof.
  intros Hq. induction j as [|j IH]; simpl; [lra|].
  apply Rmult_le_pos; [lra|]. left. now apply Rinv_0_lt_compat.
Qed.

Lemma annuity_step (q : R) (j : nat) : 0 < q -> annuity q (S j) * q = 1 + annuity q j.
Proof. intros Hq. simpl. field. lra. Qed.

Lemma annuity_closed (q : R) (j : nat) :
  0 < q -> annuity q j * (q - 1) = 1 - / q ^ j.
Proof.
  intros Hq. induction j as [|j IH].
  - simpl. rewrite Rinv_1. lra.
  - assert (Hp : q ^ j <> 0) by (apply pow_nonzero; lra).
    simpl. transitivity ((q - 1 + annuity q j * (q - 1)) / q); [field; lra|].
    rewrite IH. field. split; lra.
Qed.

Lemma annuity_one (j : nat) : annuity 1 j = INR j.
Proof.
  induction j as [|j IH]; [reflexivity|].
  rewrite S_INR. simpl. rewrite IH. field.
Qed.

Lemma annuity_S_le (q : R) (j : nat) : 0 < q -> annuity q j <= annuity q (S j).
Proof.
  intros Hq. induction j as [|j IH].
  - simpl. apply Rmult_le_pos; [lra|]. left. now apply Rinv_0_lt_compat.
  - change (annuity q (S (S j))) with ((1 + annuity q (S j)) / q).
    change (annuity q (S j)) with ((1 + annuity q j) / q) at 1.
    apply Rmult_le_compat_r; [left; now apply Rinv_0_lt_compat|].
    apply Rplus_le_compat_l. exact IH.
Qed.

Lemma annuity_pos (q : R) (j : nat) : 0 < q -> 0 < annuity q (S j).
Proof.
  intros Hq. simpl. pose proof (annuity_nonneg j Hq).
  apply Rmult_lt_0_compat; [lra|]. now apply Rinv_0_lt_compat.
Qed.

Lemma powerRZ_neg_pos (x : R) (n : Z) :
  (1 <= n)%Z -> powerRZ x (- n) = / x ^ Z.to_nat n.
Proof.
  intros H. destruct n as [|p|p]; try lia. reflexivity.
Qed.

Lemma real_pow_neg_int (x : R) (n : Z) :
  0 < x -> (1 <= n)%Z -> real_pow x (IZR (- n)) = Ok (/ x ^ Z.to_nat n).
Proof.
  intros Hx Hn. unfold real_pow.
  assert (Hne : IZR (- n) <> 0) by (apply not_0_IZR; lia).
  rewrite (Req_bool_false Hne).
  rewrite Req_bool_false by lra.
  unfold is_integer. rewrite ZfloorZ. rewrite Req_bool_true by reflexivity.
  now rewrite powerRZ_neg_pos.
Qed.

Lemma pow_gt_1 (q : R) (n : nat) : 1 < q -> (1 <= n)%nat -> 1 < q ^ n.
Proof.
  intros Hq Hn. induction n as [|n IH]; [lia|].
  destruct n as [|n]; [simpl; lra|].
  assert (1 < q ^ S n) by (apply IH; lia).
  change (q ^ S (S n)) with (q * q ^ S n). nra.
Qed.

Lemma monthly_payment_exact (principal rate years : R) (n : Z) :
  valid_terms principal rate years n ->
  monthly_payment principal rate years
  = Ok (principal / annuity (1 + rate / 100 / 12) (Z.to_nat n)).
Proof.
  intros (HP & Hr & Hn & H1).
  unfold monthly_payment. rewrite monthly_rate_of_exact. cbn [bind]. rewrite Hn. cbn [bind].
  assert (HN : INR (Z.to_nat n) = IZR n) by (rewrite INR_IZR_INZ, Z2Nat.id; [reflexivity|lia]).
  exact_ops. destruct (Req_dec_T (rate / 100 / 12) 0) as [E|NE].
  - rewrite (Req_bool_true E). unfold to_float. exact_ops. cbn [bind].
    rewrite truediv_nonzero by (apply not_0_IZR; lia).
    rewrite E, Rplus_0_r, annuity_one, HN. reflexivity.
  - rewrite (Req_bool_false NE). unfold to_float. exact_ops. cbn [bind].
    set (mr := rate / 100 / 12) in *.
    assert (Hmr : 0 < mr) by (unfold mr in *; lra).
    rewrite real_pow_neg_int by (lra || lia). cbn [bind].
    assert (Hs : Z.to_nat n = S (Nat.pred (Z.to_nat n))) by lia.
    pose proof (@annuity_closed (1 + mr) (Z.to_nat n) ltac:(lra)) as Hc.
    assert (Ha : 0 < annuity (1 + mr) (Z.to_nat n)).
    { rewrite Hs. apply annuity_pos. lra. }
    replace (1 + mr - 1) with mr in Hc by lra.
    rewrite truediv_nonzero.
    + f_equal. rewrite <- Hc. field. split; lra.
    + rewrite <- Hc. nra.
Qed.

Lemma schedule_loop_exact (mr pay : R) :
  0 <= mr -> 0 <= pay ->
  forall months,
    schedule_loop mr months (pay * annuity (1 + mr) (length months)) pay
    = amortized_rows mr pay months.
Proof.
  intros Hmr Hpay. induction months as [|k rest IH]; [reflexivity|].
  assert (Hq : 0 < 1 + mr) by lra.
  pose proof (annuity_nonneg (length rest) Hq) as Ha.
  pose proof (annuity_step (length rest) Hq) as Hs.
  cbn [schedule_loop amortized_rows length].
  set (a1 := annuity (1 + mr) (S (length rest))) in *.
  set (a0 := annuity (1 + mr) (length rest)) in *.
  exact_ops.
  assert (Hpa : 0 <= pay * a0) by (apply Rmult_le_pos; assumption).
  assert (Hb : pay * a1 - (pay - pay * a1 * mr) = pay * a0) by nra.
  rewrite Rgt_bool_false by nra.
  rewrite Hb. unfold pymax. exact_ops.
  rewrite Rgt_bool_false by lra.
  rewrite IH. f_equal. f_equal; f_equal; nra.
Qed.

Lemma amortization_schedule_exact (principal rate years : R) (n : Z) :
  valid_terms principal rate years n ->
  amortization_schedule principal rate years
  = Ok (amortized_rows (rate / 100 / 12)
          (principal / annuity (1 + rate / 100 / 12) (Z.to_nat n))
          (range 1 (n + 1))).
Proof.
  intros Hv. pose proof (monthly_payment_exact Hv) as Hm.
  destruct Hv as (HP & Hr & Hn & H1).
  unfold amortization_schedule. rewrite monthly_rate_of_exact. cbn [bind].
  rewrite Hn. cbn [bind]. rewrite Hm. cbn [bind]. f_equal.
  set (mr := rate / 100 / 12).
  assert (Hmr : 0 <= mr) by (unfold mr; lra).
  assert (Hs : Z.to_nat n = S (Nat.pred (Z.to_nat n))) by lia.
  assert (Ha : 0 < annuity (1 + mr) (Z.to_nat n)).
  { rewrite Hs. apply annuity_pos. lra. }
  assert (Hlen : length (range 1 (n + 1)) = Z.to_nat n).
  { rewrite range_length. f_equal. lia. }
  rewrite <- schedule_loop_exact.
  - rewrite Hlen. f_equal. field. lra.
  - exact Hmr.
  - apply Rmult_le_pos; [lra|]. left. now apply Rinv_0_lt_compat.
Qed.











Lemma valid_payment_nonneg (principal rate years : R) (n : Z) :
  valid_terms principal rate years n ->
  0 <= rate / 100 / 12 /\
  0 < principal / annuity (1 + rate / 100 / 12) (Z.to_nat n) /\
  principal / annuity (1 + rate / 100 / 12) (Z.to_nat n)
    * annuity (1 + rate / 100 / 12) (Z.to_nat n) = principal.
Proof.
  intros (HP & Hr & _ & H1).
  assert (Hmr : 0 <= rate / 100 / 12) by lra.
  assert (Hs : Z.to_nat n = S (Nat.pred (Z.to_nat n))) by lia.
  assert (Ha : 0 < annuity (1 + rate / 100 / 12) (Z.to_nat n)).
  { rewrite Hs. apply annuity_pos. lra. }
  repeat split; [exact Hmr| |field; lra].
  apply Rmult_lt_0_compat; [lra|]. now apply Rinv_0_lt_compat.
Qed.






Lemma n_payments_of_whole (k : Z) : n_payments_of (IZR k) = Ok (k * 12)%Z.
Proof.
  unfold n_payments_of. exact_ops. rewrite <- mult_IZR.
  now rewrite round_half_even_IZR.
Qed.

End ExactFacts.

(** ** Facts of binary64 arithmetic *)

Lemma Some_eq (A : Type) (x y : A) : Some x = Some y -> x = y.
Proof. congruence. Qed.

Lemma nearest_even_half (a t : Z) :
  (0 <= t)%Z -> Z.odd a = true ->
  Binary64.nearest_even (a * 2 ^ t) (- (t + 1))
  = if Z.even (a / 2) then (a / 2)%Z else (a / 2 + 1)%Z.
Proof.
  intros Ht Ha. unfold Binary64.nearest_even.
  replace (0 <=? - (t + 1))%Z with false by (symmetry; apply Z.leb_gt; lia).
  replace (- - (t + 1))%Z with (Z.succ t) by lia.
  rewrite Z.pow_succ_r by assumption.
  assert (Hp : (0 < 2 ^ t)%Z) by (apply Z.pow_pos_nonneg; lia).
  rewrite Z.div_mul_cancel_r by lia.
  rewrite Z.mul_mod_distr_r by lia.
  rewrite Zmod_odd, Ha.
  replace (2 * (1 * 2 ^ t) ?= 2 * 2 ^ t)%Z with Eq by (symmetry; apply Z.compare_eq_iff; lia).
  reflexivity.
Qed.

Lemma nearest_even_split (m e a t : Z) :
  (0 <= t)%Z -> Z.odd a = true -> m = (a * 2 ^ t)%Z -> e = (- (t + 1))%Z ->
  Binary64.nearest_even m e
  = if Z.even (a / 2) then (a / 2)%Z else (a / 2 + 1)%Z.
Proof. intros Ht Ha -> ->. now apply nearest_even_half. Qed.

Lemma odd_of_sign (s : bool) (a k : Z) :
  cond_Zopp s a = (2 * k + 1)%Z -> Z.odd a = true.
Proof.
  intros H. destruct s; cbn [cond_Zopp] in H.
  - rewrite <- (Z.odd_opp a), H, Z.odd_add, Z.odd_mul. reflexivity.
  - rewrite H, Z.odd_add, Z.odd_mul. reflexivity.
Qed.

Lemma half_sign (s : bool) (a k : Z) :
  cond_Zopp s a = (2 * k + 1)%Z ->
  cond_Zopp s (if Z.even (a / 2) then (a / 2)%Z else (a / 2 + 1)%Z)
  = if Z.even k then k else (k + 1)%Z.
Proof.
  intros H. destruct s; cbn [cond_Zopp] in *.
  - assert (E : a = (2 * (- k - 1) + 1)%Z) by lia. subst a.
    replace ((2 * (- k - 1) + 1) / 2)%Z with (- k - 1)%Z
      by (apply Z.div_unique with (r := 1%Z); lia).
    replace (- k - 1)%Z with (- (k + 1))%Z by lia.
    rewrite Z.even_opp, Z.even_add. cbn.
    destruct (Z.even k); cbn; lia.
  - subst a.
    replace ((2 * k + 1) / 2)%Z with k
      by (apply Z.div_unique with (r := 1%Z); lia).
    reflexivity.
Qed.

Section Binary64Facts.

Import Binary64.
Local Open Scope float_scope.

(** Whatever the C library's [pow] returns. *)
Variable libm_pow : float -> float -> float.

Let B64 : PyFloat float := binary64 libm_pow.
#[local] Existing Instance B64.

Lemma monthly_rate_of_b64 (rate : float) :
  monthly_rate_of rate = Ok (rate / 100 / 12).
Proof. reflexivity. Qed.

(** C3 (as the code has it): monthly_payment never checks the period count
    n = round(years * 12).  With n = 0 it raises ZeroDivisionError, at any
    principal and rate; at rate 0 it returns principal / float(n) for every n
    whose float is not zero, negative n included. *)
Theorem monthly_payment_term_unchecked (principal rate years : float) (n : Z) :
  n_payments_of years = Ok n ->
  (n = 0%Z -> monthly_payment principal rate years = Raise ZeroDivisionError)
  /\ (forall nf, to_float n = Ok nf -> feqb nf 0 = false ->
        monthly_payment principal 0 years = Ok (principal / nf)).
Proof.
  intros Hn. split.
  - intros ->. unfold monthly_payment. rewrite monthly_rate_of_b64. cbn [bind].
    rewrite Hn. cbn [bind].
    destruct (feqb (rate / 100 / 12) (of_int 0)); reflexivity.
  - intros nf Hf Hz. unfold monthly_payment. rewrite monthly_rate_of_b64. cbn [bind].
    rewrite Hn. cbn [bind].
    change (feqb (0 / 100 / 12) (of_int 0)) with true. cbv iota.
    rewrite Hf. cbn [bind]. unfold truediv.
    change (of_int 0) with 0. now rewrite Hz.
Qed.

(** C4 (as the code has it): with compounding frequency n = 0,
    compound_interest raises ZeroDivisionError (from [rate / n]), at any
    principal, rate and time. *)
Theorem compound_interest_zero_frequency (principal rate years : float) :
  compound_interest principal rate years 0 = Raise ZeroDivisionError.
Proof. reflexivity. Qed.

(** C6 (as the code has it): when years * 12 is exactly halfway between the
    integers k and k + 1, the period count is the even one of the two. *)
Theorem n_payments_ties_to_even (years : float) (k : Z) :
  halfway (years * 12) k ->
  n_payments_of years = Ok (if Z.even k then k else (k + 1)%Z).
Proof.
  unfold halfway, scaled_integer_value, n_payments_of.
  change (round_int (fmul years (of_int 12))) with (round_to_int (years * 12)).
  unfold round_to_int.
  destruct (Prim2SF (years * 12)) as [s|s| |s m e]; try discriminate.
  - intros H. apply Some_eq in H. lia.
  - cbv zeta. destruct (Z.leb_spec 0 (e + 1)) as [Hle|Hlt].
    + intros H. apply Some_eq in H.
      assert (He : (e + 1 = 0)%Z).
      { destruct (Z.eq_dec (e + 1) 0) as [E|NE]; [exact E|exfalso].
        assert (Hev : Z.even (cond_Zopp s (Z.pos m * 2 ^ (e + 1))) = true).
        { replace (e + 1)%Z with (Z.succ e) by lia.
          rewrite Z.pow_succ_r by lia.
          destruct s; cbn [cond_Zopp]; rewrite ?Z.even_opp;
            rewrite Z.mul_assoc, (Z.mul_comm (Z.pos m)), <- Z.mul_assoc;
            apply Z.even_mul. }
        rewrite H, Z.even_add, Z.even_mul in Hev. discriminate. }
      rewrite He in H. cbn [Z.pow] in H. rewrite Z.mul_1_r in H.
      rewrite (@nearest_even_split (Z.pos m) e (Z.pos m) 0); try lia.
      * f_equal. now apply half_sign.
      * now apply odd_of_sign with (s := s) (k := k).
    + destruct (Z.eqb_spec (Z.pos m mod 2 ^ (- (e + 1))) 0) as [Hm|Hm]; [|discriminate].
      intros H. apply Some_eq in H.
      assert (Hp : (0 < 2 ^ (- (e + 1)))%Z) by (apply Z.pow_pos_nonneg; lia).
      set (a := (Z.pos m / 2 ^ (- (e + 1)))%Z) in *.
      assert (Em : Z.pos m = (a * 2 ^ (- (e + 1)))%Z).
      { unfold a. rewrite Z.mul_comm. apply Z.div_exact; lia. }
      rewrite (@nearest_even_split (Z.pos m) e a (- (e + 1))); try lia.
      * f_equal. now apply half_sign.
      * now apply odd_of_sign with (s := s) (k := k).
Qed.


Lemma ending_bind (A B : Type) (c : outcome A) (k : A -> outcome B) :
  ending (bind c k) = bind c (fun v => ending (k v)).
Proof. destruct c; reflexivity. Qed.




End Binary64Facts.

(** ** The theorems at concrete loans *)

Section ExactWitnesses.

Import Exact.
Local Open Scope R_scope.

(** A 30-year loan of 250000 at 3.5 percent is a valid LoanTerms. *)
Lemma valid_terms_mortgage : valid_terms 250000 (35 / 10) 30 360.
Proof.
  repeat split; [lra|lra|apply (n_payments_of_whole 30)|lia].
Qed.






End ExactWitnesses.

Section Binary64Witnesses.

Import Binary64.
Local Open Scope float_scope.
#[local] Existing Instance py.

(** C3 at years = -1, a period count of -12. *)
Lemma monthly_payment_term_unchecked_witness :
  ((-12)%Z = 0%Z -> monthly_payment 1200 0 (-1) = Raise ZeroDivisionError)
  /\ (forall nf, to_float (-12) = Ok nf -> feqb nf 0 = false ->
        monthly_payment 1200 0 (-1) = Ok (1200 / nf)).
Proof.
  apply (@monthly_payment_term_unchecked pow_ref 1200 0 (-1) (-12)%Z).
  vm_compute. reflexivity.
Defined.

(** C6 at years = 0.125: 1.5 periods round to 2. *)
Lemma n_payments_ties_to_even_witness : n_payments_of 0.125 = Ok 2%Z.
Proof.
  apply (@n_payments_ties_to_even pow_ref 0.125 1).
  vm_compute. reflexivity.
Defined.

End Binary64Witnesses.

(** ** The scenarios of the specification, run in binary64 *)

Section Binary64Scenarios.

Import Binary64.
Local Open Scope float_scope.
#[local] Existing Instance py.
#[local] Set Warnings "-inexact-float".

(** principal=10000, rate=5, time=3: interest 1500.00, total 11500.00. *)
Example simple_scenario :
  simple_interest 10000 5 3
  = Ok {| si_principal := 10000; si_interest := 1500; si_total := 11500 |}.
Proof. vm_compute. reflexivity. Qed.

(** principal=250000, rate=3.5, years=30, with the value a C library's [pow]
    returns for [(1 + 3.5/100/12) ** (-360)]: a monthly payment of
    1122.6117195220588, 360 rows, the last with a remaining_balance of 0.00,
    and a payment of 1122.61 in every row before the last. *)
Example mortgage_scenario (libm_pow : float -> float -> float) :
  libm_pow (1 + 3.5 / 100 / 12) (-360) = 0.350472960520043 ->
  monthly_payment (PF := binary64 libm_pow) 250000 3.5 30
  = Ok 1122.6117195220588
  /\ (rows <- amortization_schedule (PF := binary64 libm_pow) 250000 3.5 30 ;;
      Ok (length rows, final_balance rows,
          forallb (fun r => payment r =? 1122.61) (removelast rows)))
     = Ok (360%nat, Some 0, true).
Proof.
  intros H. vm_compute in H.
  assert (Hm : monthly_payment (PF := binary64 libm_pow) 250000 3.5 30
               = Ok 1122.6117195220588).
  { vm_compute. rewrite H. vm_compute. reflexivity. }
  split; [exact Hm|].
  unfold amortization_schedule. rewrite Hm. vm_compute. reflexivity.
Qed.

(** 1200 over one year at rate 0: a payment of 100 and no interest in any of
    the 12 rows. *)
Example zero_rate_scenario :
  monthly_payment 1200 0 1 = Ok 100
  /\ (rows <- amortization_schedule 1200 0 1 ;;
      Ok (length rows, final_balance rows,
          forallb (fun r => (payment r =? 100) && (interest_paid r =? 0)) rows))
     = Ok (12%nat, Some 0, true).
Proof. vm_compute. split; reflexivity. Qed.

End Binary64Scenarios.

(** ** Inputs on which the program departs from the specification *)

Section Binary64Counterexamples.

Import Binary64.
Local Open Scope float_scope.
#[local] Existing Instance py.
#[local] Set Warnings "-inexact-float".

(** C1 fails in binary64.  At 1200 percent a year the monthly rate is 1.0 and
    [(1 + 1.0) ** (-60)] is 2^-60, so [1 - 2^-60] rounds to 1.0 and the
    payment equals the first month's interest: no principal is ever repaid,
    and the last of the 60 rows still shows a remaining_balance of 1000.
    At 75 percent over 40 years the rounding error of the payment
    15625.000000003596 is multiplied by 1.0625^480, and the last row of a
    loan of 250000 shows a remaining_balance of 51.53. *)
Lemma final_balance_not_cleared :
  n_payments_of 5 = Ok 60%Z
  /\ (rows <- amortization_schedule 1000 1200 5 ;; Ok (final_balance rows))
     = Ok (Some 1000)
  /\ within 1000 0 0.01 = false
  /\ n_payments_of 40 = Ok 480%Z
  /\ (rows <- amortization_schedule 250000 75 40 ;; Ok (final_balance rows))
     = Ok (Some 51.53)
  /\ within 51.53 0 0.01 = false.
Proof. vm_compute. repeat split. Qed.

(** C2 fails in binary64.  For 1493.80 at 600 percent over 91 months the
    payment is 746.9000000000001, one unit in the last place above the first
    month's interest where the exact payment lies 0.6 of a unit above it, and
    the balance is used up one period early: the correction fires in row 90,
    whose payment is 242.96, and row 91 is left with a payment of 0.  Two
    rows, one of them before the last, differ from the 746.90 of the rows
    before. *)
Lemma correction_before_last_row :
  n_payments_of 7.583333333333333 = Ok 91%Z
  /\ (rows <- amortization_schedule 1493.8 600 7.583333333333333 ;;
      Ok (length rows,
          map (@payment float) (firstn 1 rows),
          map (fun r => (month r, payment r)) (skipn 88 rows)))
     = Ok (91%nat, [746.9], [(89%Z, 746.9); (90%Z, 242.96); (91%Z, 0)]).
Proof. vm_compute. repeat split. Qed.

(** C8 fails in binary64 on the loans on which C1 fails: for 1000 at 1200
    percent the 60 principal_paid fields are all 0, and their sum misses the
    principal by more than 60 * 0.01; for 250000 at 75 percent over 40 years
    the 480 fields sum to 249948.46, and 250000 is more than 480 * 0.01
    away. *)
Lemma principal_sum_not_repaid :
  (rows <- amortization_schedule 1000 1200 5 ;;
   Ok (length rows, sum_principal_paid rows)) = Ok (60%nat, 0)
  /\ within 0 1000 (60 * 0.01) = false
  /\ (rows <- amortization_schedule 250000 75 40 ;;
      Ok (length rows, sum_principal_paid rows)) = Ok (480%nat, 249948.46)
  /\ within 249948.46 250000 (480 * 0.01) = false.
Proof. vm_compute. repeat split. Qed.

(** C5 fails in binary64 when principal * monthly_rate overflows: the payment
    and the interest are infinite, their difference is NaN, and every
    remaining_balance is NaN, which is not >= 0. *)
Lemma balance_not_a_number :
  n_payments_of 0.25 = Ok 3%Z
  /\ (rows <- amortization_schedule 1e308 10000 0.25 ;;
      Ok (map (@remaining_balance float) rows)) = Ok [nan; nan; nan]
  /\ (0 <=? nan) = false.
Proof. vm_compute. repeat split. Qed.


(** C3 fails: with years = -1 the period count is -12 and monthly_payment
    returns -100.0 without any error; with years = 0 the error raised is
    ZeroDivisionError, not InvalidTerm. *)
Lemma negative_term_accepted :
  n_payments_of (-1) = Ok (-12)%Z
  /\ monthly_payment 1200 0 (-1) = Ok (-100)
  /\ n_payments_of 0 = Ok 0%Z
  /\ monthly_payment 1200 0 0 = Raise ZeroDivisionError
  /\ exn_name ZeroDivisionError <> "InvalidTerm"%string.
Proof. vm_compute. repeat split. discriminate. Qed.

(** C4 fails: with n = 0 the error raised is ZeroDivisionError, not
    InvalidCompoundingFrequency. *)
Lemma zero_frequency_error :
  compound_interest 10000 5 3 0 = Raise ZeroDivisionError
  /\ exn_name ZeroDivisionError <> "InvalidCompoundingFrequency"%string.
Proof. vm_compute. split; [reflexivity|discriminate]. Qed.

(** C6 fails: years = 0.375 gives years * 12 = 4.5, and the period count is
    4, not 5. *)
Lemma half_rounds_to_even :
  0.375 * 12 = 4.5 /\ n_payments_of 0.375 = Ok 4%Z.
Proof. vm_compute. split; reflexivity. Qed.

(** C7 fails: for 1056 at 12 percent over 3 months, row 1 records a
    remaining_balance of 707.50 and row 2 an interest_paid of 7.07, the
    rounding of 707.4966... * 0.01; the recorded balance would give
    round(707.50 * 0.01, 2) = 7.08. *)
Lemma interest_from_unrounded_balance :
  (rows <- amortization_schedule 1056 12 0.25 ;;
   Ok (map (fun r => (remaining_balance r, interest_paid r)) (firstn 2 rows)))
  = Ok [(707.5, 10.56); (355.51, 7.07)]
  /\ monthly_rate_of 12 = Ok 0.01
  /\ round2 (707.5 * 0.01) = 7.08.
Proof. vm_compute. repeat split. Qed.


End Binary64Counterexamples.

(** * More of src/fix.py *)

(** ** The shape of a schedule, in every arithmetic *)

Section ScheduleShape.

Context {F : Type} (PF : PyFloat F).

Lemma schedule_loop_months (mr : F) (months : list Z) :
  forall balance pay,
    map (@month F) (schedule_loop mr months balance pay) = months.
Proof.
  induction months as [|k rest IH]; intros; [reflexivity|].
  cbn [schedule_loop map month]. now rewrite IH.
Qed.

(** X1: in every arithmetic, a schedule that amortization_schedule returns
    has one row per month, numbered 1, 2, ..., n in this order, where n is
    the period count int(round(years * 12)); for n <= 0 that is no row. *)
Theorem schedule_rows_numbered (principal rate years : F) (n : Z) (rows : list (row F)) :
  n_payments_of years = Ok n ->
  amortization_schedule principal rate years = Ok rows ->
  map (@month F) rows = range 1 (n + 1) /\ length rows = Z.to_nat n.
Proof.
  intros Hn. unfold amortization_schedule.
  destruct (monthly_rate_of rate) as [mr|e|]; cbn [bind]; try discriminate.
  rewrite Hn. cbn [bind].
  destruct (monthly_payment principal rate years) as [pay|e|]; cbn [bind]; try discriminate.
  intros H. injection H as <-. split.
  - apply schedule_loop_months.
  - rewrite schedule_loop_length, range_length. f_equal. lia.
Qed.

Ltac same_error :=
  split;
  [ intros e; split; intros H; try discriminate; injection H as <-; reflexivity
  | split; intros [x H]; discriminate ].

(** X2: in every arithmetic, amortization_schedule raises exactly the
    exceptions monthly_payment raises on the same arguments, and returns a
    schedule exactly when monthly_payment returns a payment: the loop adds
    no failure of its own and hides none. *)
Theorem schedule_fails_as_payment (principal rate years : F) :
  (forall e, amortization_schedule principal rate years = Raise e
             <-> monthly_payment principal rate years = Raise e)
  /\ ((exists rows, amortization_schedule principal rate years = Ok rows)
      <-> (exists pay, monthly_payment principal rate years = Ok pay)).
Proof.
  unfold amortization_schedule.
  destruct (monthly_rate_of rate) as [mr|e0|] eqn:Hr; cbn [bind].
  - destruct (n_payments_of years) as [n|e0|] eqn:Hn; cbn [bind].
    + destruct (monthly_payment principal rate years) as [pay|e0|]; cbn [bind].
      * split; [intros e; split; discriminate|]. split; intros _; eexists; reflexivity.
      * same_error.
      * same_error.
    + unfold monthly_payment. rewrite Hr. cbn [bind]. rewrite Hn. cbn [bind].
      same_error.
    + unfold monthly_payment. rewrite Hr. cbn [bind]. rewrite Hn. cbn [bind].
      same_error.
  - unfold monthly_payment. rewrite Hr. cbn [bind].
    same_error.
  - unfold monthly_payment. rewrite Hr. cbn [bind].
    same_error.
Qed.

(** X3: in every arithmetic, when the period count n is <= 0 and
    monthly_payment still returns a payment (a negative term at rate 0, for
    one), amortization_schedule returns the empty schedule, not an error. *)
Theorem nonpositive_term_empty_schedule (principal rate years pay : F) (n : Z) :
  n_payments_of years = Ok n -> n <= 0 ->
  monthly_payment principal rate years = Ok pay ->
  amortization_schedule principal rate years = Ok [].
Proof.
  intros Hn Hle Hp. unfold amortization_schedule.
  destruct (monthly_rate_of rate) as [mr|e|] eqn:Hr; cbn [bind].
  - rewrite Hn. cbn [bind]. rewrite Hp. cbn [bind]. f_equal.
    unfold range. replace (Z.to_nat (n + 1 - 1)) with O by lia. reflexivity.
  - unfold monthly_payment in Hp. rewrite Hr in Hp. discriminate.
  - unfold monthly_payment in Hp. rewrite Hr in Hp. discriminate.
Qed.

End ScheduleShape.

(** ** More facts of the exact arithmetic *)

Section ExactLoanFacts.

Import Exact.
Local Open Scope R_scope.

Ltac exact_ops :=
  cbn [of_int int_fits fadd fsub fmul fdiv feqb fgtb fpow round_int round2 exact unrounded].

Lemma annuity_le_count (q : R) (j : nat) : 1 <= q -> annuity q j <= INR j.
Proof.
  intros Hq. induction j as [|j IH]; [simpl; lra|].
  rewrite S_INR. cbn [annuity].
  pose proof (@annuity_nonneg q j ltac:(lra)) as Ha.
  apply Rmult_le_reg_r with (r := q); [lra|].
  replace ((1 + annuity q j) / q * q) with (1 + annuity q j) by (field; lra).
  pose proof (pos_INR j). nra.
Qed.

Lemma annuity_lt_count (q : R) (j : nat) : 1 < q -> annuity q (S j) < INR (S j).
Proof.
  intros Hq. rewrite S_INR. cbn [annuity].
  pose proof (@annuity_nonneg q j ltac:(lra)) as Ha.
  pose proof (@annuity_le_count q j ltac:(lra)) as Hl.
  apply Rmult_lt_reg_r with (r := q); [lra|].
  replace ((1 + annuity q j) / q * q) with (1 + annuity q j) by (field; lra).
  pose proof (pos_INR j). nra.
Qed.

(** X4: absent floating-point error, the n monthly payments of a valid loan
    add up to at least the principal: to the principal itself at rate 0, to
    more at a positive rate. *)
Theorem exact_payments_cover_principal (principal rate years : R) (n : Z) :
  valid_terms principal rate years n ->
  exists pay,
    monthly_payment principal rate years = Ok pay
    /\ principal <= pay * IZR n
    /\ (rate = 0 -> pay * IZR n = principal)
    /\ (0 < rate -> principal < pay * IZR n).
Proof.
  intros Hv. rewrite (monthly_payment_exact Hv).
  destruct (valid_payment_nonneg Hv) as (Hmr & Hpay & Hprod).
  destruct Hv as (HP & Hr & Hn & H1).
  set (mr := rate / 100 / 12) in *. set (pay := principal / _) in *.
  assert (HN : INR (Z.to_nat n) = IZR n) by (rewrite INR_IZR_INZ, Z2Nat.id; [reflexivity|lia]).
  assert (Hs : Z.to_nat n = S (Nat.pred (Z.to_nat n))) by lia.
  exists pay. split; [reflexivity|].
  pose proof (@annuity_le_count (1 + mr) (Z.to_nat n) ltac:(lra)) as Hle.
  rewrite HN in Hle.
  split; [|split].
  - rewrite <- Hprod. apply Rmult_le_compat_l; lra.
  - intros E. assert (Em : mr = 0) by (unfold mr; lra).
    rewrite <- Hprod. f_equal.
    rewrite Em, Rplus_0_r, annuity_one, HN. reflexivity.
  - intros Hpos. assert (Hm : 0 < mr) by (unfold mr; lra).
    pose proof (@annuity_lt_count (1 + mr) (Nat.pred (Z.to_nat n)) ltac:(lra)) as Hlt.
    rewrite <- Hs, HN in Hlt.
    rewrite <- Hprod. apply Rmult_lt_compat_l; lra.
Qed.

(** Row accounting *)

Lemma schedule_loop_accounting (mr : R) (months : list Z) :
  forall balance pay,
    Forall (fun r => payment r = principal_paid r + interest_paid r)
      (schedule_loop (PF := unrounded exact) mr months balance pay).
Proof.
  induction months as [|k rest IH]; intros balance pay; [constructor|].
  cbn [schedule_loop]. constructor; [|apply IH].
  cbn [payment principal_paid interest_paid]. exact_ops.
  destruct (Rgt_bool (pay - balance * mr) balance); lra.
Qed.

Lemma round_cents_sum (p a b : R) :
  p = a + b -> Rabs (round_cents p - (round_cents a + round_cents b)) <= 1 / 100.
Proof.
  intros E. unfold round_cents.
  pose proof (round_half_even_bounds (100 * p)) as Hp.
  pose proof (round_half_even_bounds (100 * a)) as Ha.
  pose proof (round_half_even_bounds (100 * b)) as Hb.
  set (kp := round_half_even (100 * p)) in *.
  set (ka := round_half_even (100 * a)) in *.
  set (kb := round_half_even (100 * b)) in *.
  assert (Hz : (-1 <= kp - (ka + kb) <= 1)%Z).
  { assert (H1 : (-2 < kp - (ka + kb))%Z)
      by (apply lt_IZR; rewrite minus_IZR, plus_IZR; lra).
    assert (H2 : (kp - (ka + kb) < 2)%Z)
      by (apply lt_IZR; rewrite minus_IZR, plus_IZR; lra).
    lia. }
  destruct Hz as [Hz1 Hz2]. apply IZR_le in Hz1, Hz2.
  rewrite minus_IZR, plus_IZR in Hz1, Hz2.
  apply Rabs_le. lra.
Qed.

(** X5: absent floating-point error, every row of every schedule balances
    to the cent: the payment shown differs from principal_paid +
    interest_paid by at most 0.01, and before the rounding to two decimals
    the two are equal, in the corrected row as in the others. *)
Theorem exact_rows_balance (principal rate years : R) (rows : list (row R)) :
  amortization_schedule principal rate years = Ok rows ->
  Forall (fun r => Rabs (payment r - (principal_paid r + interest_paid r)) <= 1 / 100) rows
  /\ exists raw,
       amortization_schedule (PF := unrounded exact) principal rate years = Ok raw
       /\ rows = map round_row raw
       /\ Forall (fun r => payment r = principal_paid r + interest_paid r) raw.
Proof.
  unfold amortization_schedule.
  change (monthly_rate_of (PF := unrounded exact) rate) with (monthly_rate_of rate).
  change (n_payments_of (PF := unrounded exact) years) with (n_payments_of years).
  change (monthly_payment (PF := unrounded exact) principal rate years)
    with (monthly_payment principal rate years).
  destruct (monthly_rate_of rate) as [mr|e|]; cbn [bind]; try discriminate.
  destruct (n_payments_of years) as [n|e|]; cbn [bind]; try discriminate.
  destruct (monthly_payment principal rate years) as [pay|e|]; cbn [bind]; try discriminate.
  intros H. injection H as <-.
  pose proof (schedule_loop_accounting mr (range 1 (n + 1)) principal pay) as Hraw.
  split.
  - rewrite schedule_loop_unrounded. apply Forall_map.
    eapply Forall_impl; [|exact Hraw]. intros r Hr. cbn.
    apply round_cents_sum. exact Hr.
  - eexists. split; [reflexivity|]. split; [apply schedule_loop_unrounded|exact Hraw].
Qed.

(** X7: absent floating-point error, over one year with one compounding
    compound_interest and simple_interest agree: the amount is the total and
    the interest is the same, at every principal and rate. *)
Theorem exact_one_year_compound_is_simple (principal rate : R) :
  exists s c,
    simple_interest principal rate 1 = Ok s
    /\ compound_interest principal rate 1 1 = Ok c
    /\ ci_amount c = si_total s
    /\ ci_interest c = si_interest s.
Proof.
  unfold simple_interest, compound_interest.
  rewrite truediv_nonzero by (apply not_0_IZR; lia). cbn [bind].
  unfold to_float. exact_ops. cbn [bind].
  rewrite truediv_nonzero by lra. cbn [bind].
  assert (Hp : real_pow (1 + rate / 100 / 1) (1 * 1) = Ok (1 + rate / 100)).
  { unfold real_pow. rewrite Req_bool_false by lra.
    destruct (Req_dec_T (1 + rate / 100 / 1) 0) as [E|NE].
    - rewrite (Req_bool_true E). destruct (Rlt_dec (1 * 1) 0); [lra|]. f_equal. lra.
    - rewrite (Req_bool_false NE).
      assert (Hf : Zfloor (1 * 1) = 1%Z).
      { apply Zfloor_eq. lra. }
      unfold is_integer. rewrite Hf. rewrite Req_bool_true by lra.
      f_equal. rewrite powerRZ_1. lra. }
  rewrite Hp. cbn [bind]. eexists _, _. split; [reflexivity|]. split; [reflexivity|].
  cbn [ci_amount si_total ci_interest si_interest]. split; lra.
Qed.

(** Interest falls and principal rises *)

Lemma annuity_gap (q : R) (j : nat) :
  1 <= q ->
  0 <= annuity q (S j) - annuity q j
  /\ annuity q (S (S j)) - annuity q (S j) <= annuity q (S j) - annuity q j.
Proof.
  intros Hq.
  assert (Hg : forall i, 0 <= annuity q (S i) - annuity q i).
  { intros i. pose proof (@annuity_S_le q i ltac:(lra)). lra. }
  split; [apply Hg|].
  pose proof (Hg j) as H0.
  replace (annuity q (S (S j)) - annuity q (S j))
    with ((annuity q (S j) - annuity q j) / q) by (cbn [annuity]; field; lra).
  apply Rmult_le_reg_r with (r := q); [lra|].
  replace ((annuity q (S j) - annuity q j) / q * q)
    with (annuity q (S j) - annuity q j) by (field; lra).
  nra.
Qed.

Lemma amortized_rows_trend (mr pay : R) :
  0 <= mr -> 0 <= pay ->
  forall months l1 r1 r2 l2,
    amortized_rows mr pay months = l1 ++ r1 :: r2 :: l2 ->
    interest_paid r2 <= interest_paid r1 /\ principal_paid r1 <= principal_paid r2.
Proof.
  intros Hmr Hpay. induction months as [|k rest IH]; intros l1 r1 r2 l2 E.
  - destruct l1; discriminate.
  - destruct l1 as [|a l1].
    + destruct rest as [|k' rest']; [discriminate|].
      cbn [amortized_rows app] in E. injection E as <- <- _.
      cbn [interest_paid principal_paid length].
      pose proof (@annuity_gap (1 + mr) (length rest') ltac:(lra)) as [Hg0 Hg1].
      pose proof (@annuity_S_le (1 + mr) (S (length rest')) ltac:(lra)) as Hs.
      pose proof (@annuity_nonneg (1 + mr) (S (length rest')) ltac:(lra)) as Ha.
      assert (Hpm : 0 <= pay * mr) by (apply Rmult_le_pos; assumption).
      split; apply round_cents_mono.
      * rewrite !(Rmult_comm _ mr), <- !Rmult_assoc, !(Rmult_comm mr pay).
        apply Rmult_le_compat_l; assumption.
      * rewrite <- !Rmult_minus_distr_l. apply Rmult_le_compat_l; assumption.
    + cbn [amortized_rows app] in E. injection E as _ E. now apply IH in E.
Qed.

(** X6: absent floating-point error, along the schedule of a valid loan the
    interest_paid never rises and the principal_paid never falls from one
    row to the next. *)
Theorem exact_interest_falls_principal_rises (principal rate years : R) (n : Z) :
  valid_terms principal rate years n ->
  exists rows,
    amortization_schedule principal rate years = Ok rows
    /\ forall l1 r1 r2 l2, rows = l1 ++ r1 :: r2 :: l2 ->
         interest_paid r2 <= interest_paid r1
         /\ principal_paid r1 <= principal_paid r2.
Proof.
  intros Hv. rewrite (amortization_schedule_exact Hv).
  destruct (valid_payment_nonneg Hv) as (Hmr & Hpay & _).
  eexists. split; [reflexivity|].
  intros l1 r1 r2 l2 E. eapply amortized_rows_trend; [| |exact E]; lra.
Qed.

End ExactLoanFacts.

(** ** More facts of binary64 *)

Section Binary64Rounding.

Local Open Scope Z_scope.

(** digits *)
Lemma digits2_pos_size (p : positive) : digits2_pos p = Pos.size p.
Proof. induction p; cbn; congruence. Qed.

Lemma Zdigits2_log2 (p : positive) : Zdigits2 (Zpos p) = Z.log2 (Zpos p) + 1.
Proof.
  cbn [Zdigits2]. rewrite digits2_pos_size.
  destruct p; cbn [Z.log2 Pos.size]; lia.
Qed.

Lemma Zdigits2_le (a b : positive) : Zpos a <= Zpos b -> Zdigits2 (Zpos a) <= Zdigits2 (Zpos b).
Proof. intros H. rewrite !Zdigits2_log2. apply Z.log2_le_mono in H. lia. Qed.

Lemma Zdigits2_shift (a : positive) (k : Z) (b : positive) :
  0 <= k -> Zpos b = Zpos a * 2 ^ k -> Zdigits2 (Zpos b) = Zdigits2 (Zpos a) + k.
Proof.
  intros Hk E. rewrite !Zdigits2_log2, E, Z.log2_mul_pow2 by lia. lia.
Qed.

Lemma Zdigits2_bounds (p : positive) :
  2 ^ (Zdigits2 (Zpos p) - 1) <= Zpos p < 2 ^ Zdigits2 (Zpos p).
Proof.
  rewrite Zdigits2_log2. replace (Z.log2 (Z.pos p) + 1 - 1) with (Z.log2 (Z.pos p)) by lia.
  replace (Z.log2 (Z.pos p) + 1) with (Z.succ (Z.log2 (Z.pos p))) by lia.
  apply Z.log2_spec. lia.
Qed.

(** iter_pos *)
Lemma iter_pos_nat (A : Type) (f : A -> A) (p : positive) (x : A) :
  SpecFloat.iter_pos f p x = Nat.iter (Pos.to_nat p) f x.
Proof.
  revert x. induction p as [p IH|p IH|]; intros x; cbn [SpecFloat.iter_pos].
  - rewrite !IH, Pos2Nat.inj_xI. cbn [Nat.iter Nat.mul].
    rewrite Nat.add_0_r, <- Nat.iter_add, <- Nat.iter_succ_r. reflexivity.
  - rewrite !IH, Pos2Nat.inj_xO. cbn [Nat.mul].
    rewrite Nat.add_0_r, <- Nat.iter_add. reflexivity.
  - reflexivity.
Qed.

(** shr_1 *)
Lemma shr_1_m (mrs : shr_record) :
  0 <= shr_m mrs -> shr_m (shr_1 mrs) = shr_m mrs / 2.
Proof.
  destruct mrs as [m r s]. cbn [shr_m]. intros Hm.
  destruct m as [|p|p]; [reflexivity| |lia].
  destruct p as [p|p|]; cbn [shr_1 shr_m].
  - rewrite Pos2Z.inj_xI. apply Z.div_unique with (r := 1); lia.
  - rewrite Pos2Z.inj_xO. apply Z.div_unique with (r := 0); lia.
  - reflexivity.
Qed.

Lemma shr_1_inexact (mrs : shr_record) :
  0 <= shr_m mrs ->
  shr_r (shr_1 mrs) || shr_s (shr_1 mrs) = true ->
  shr_r mrs || shr_s mrs = true \/ shr_m mrs mod 2 <> 0.
Proof.
  destruct mrs as [m r s]. cbn [shr_m shr_r shr_s]. intros Hm.
  destruct m as [|p|p]; [|destruct p as [p|p|]|lia]; cbn [shr_1 shr_r shr_s];
    intros H.
  - left. exact H.
  - right. rewrite Pos2Z.inj_xI. rewrite Z.add_comm, Z.mul_comm, Z.mod_add by lia. discriminate.
  - left. exact H.
  - right. discriminate.
Qed.

Lemma shr_iter (k : nat) (mrs : shr_record) :
  0 <= shr_m mrs ->
  let mrs' := Nat.iter k shr_1 mrs in
  shr_m mrs' = shr_m mrs / 2 ^ Z.of_nat k
  /\ (shr_r mrs' || shr_s mrs' = true ->
      shr_r mrs || shr_s mrs = true \/ shr_m mrs mod 2 ^ Z.of_nat k <> 0).
Proof.
  intros Hm. induction k as [|k IH]; cbn zeta.
  - cbn. rewrite Z.div_1_r. split; [reflexivity|]. intros H. now left.
  - cbn zeta in IH. destruct IH as [IHm IHl].
    rewrite Nat.iter_succ. set (prev := Nat.iter k shr_1 mrs) in *.
    assert (Hp : 0 <= shr_m prev).
    { rewrite IHm. apply Z.div_pos; [lia|]. apply Z.pow_pos_nonneg; lia. }
    assert (Hk : 0 < 2 ^ Z.of_nat k) by (apply Z.pow_pos_nonneg; lia).
    rewrite Nat2Z.inj_succ, Z.pow_succ_r by lia.
    split.
    + rewrite shr_1_m by exact Hp. rewrite IHm.
      rewrite Z.div_div by lia. f_equal. lia.
    + intros H. apply shr_1_inexact in H; [|exact Hp].
      destruct H as [H|H].
      * destruct (IHl H) as [Hl|Hl]; [now left|right].
        intros E. apply Hl.
        apply Z.mod_divide in E; [|lia]. apply Z.mod_divide; [lia|].
        destruct E as [c E]. exists (c * 2). lia.
      * right. intros E. apply H. rewrite IHm.
        apply Z.mod_divide in E; [|lia]. destruct E as [c E].
        rewrite E. replace (c * (2 * 2 ^ Z.of_nat k)) with (c * 2 * 2 ^ Z.of_nat k) by lia.
        rewrite Z.div_mul by lia. apply Z.mod_mul. lia.
Qed.

Lemma shr_m_of_loc (m : Z) (l : location) : shr_m (shr_record_of_loc m l) = m.
Proof. destruct l as [|[| |]]; reflexivity. Qed.

Lemma loc_exact_bits (mrs : shr_record) :
  loc_of_shr_record mrs <> loc_Exact -> shr_r mrs || shr_s mrs = true.
Proof. destruct mrs as [m [|] [|]]; cbn; congruence. Qed.

(** [shr mrs e n] *)
Lemma shr_spec (mrs : shr_record) (e n : Z) :
  0 <= shr_m mrs ->
  snd (shr mrs e n) = e + Z.max 0 n
  /\ shr_m (fst (shr mrs e n)) = shr_m mrs / 2 ^ Z.max 0 n
  /\ (shr_r (fst (shr mrs e n)) || shr_s (fst (shr mrs e n)) = true ->
      shr_r mrs || shr_s mrs = true \/ shr_m mrs mod 2 ^ Z.max 0 n <> 0).
Proof.
  intros Hm. destruct n as [|p|p]; cbn [shr fst snd].
  - rewrite Z.max_l by lia. cbn [Z.pow]. rewrite Z.div_1_r, Z.add_0_r. auto.
  - rewrite Z.max_r by lia. rewrite iter_pos_nat.
    destruct (shr_iter (Pos.to_nat p) mrs Hm) as [H1 H2].
    rewrite positive_nat_Z in H1, H2. auto.
  - rewrite Z.max_l by lia. cbn [Z.pow]. rewrite Z.div_1_r, Z.add_0_r. auto.
Qed.

Lemma round_nearest_even_cases (q : Z) (l : location) :
  round_nearest_even q l = q
  \/ (round_nearest_even q l = q + 1 /\ l <> loc_Exact).
Proof.
  destruct l as [|[| |]]; cbn; auto.
  - destruct (Z.even q); [auto|right; split; [reflexivity|discriminate]].
  - right. split; [reflexivity|discriminate].
Qed.

Lemma fexp_eq (x : Z) : fexp prec emax x = Z.max (x - 53) (-1074).
Proof. reflexivity. Qed.

Lemma Zdigits2_pos_log2 (a : Z) : 0 < a -> Zdigits2 a = Z.log2 a + 1.
Proof. destruct a as [|p|p]; try lia. intros _. apply Zdigits2_log2. Qed.

Lemma Zdigits2_nonneg (a : Z) : 0 <= a -> 0 <= Zdigits2 a.
Proof. destruct a; cbn; lia. Qed.

(** The first rounding step of [binary_round_aux], on an exact positive
    [M * 2^E] that does not exceed the canonical [K * 2^ex]. *)
Lemma first_shift_bound (M E K ex : Z) :
  0 < M -> 0 < K -> E <= ex -> M <= K * 2 ^ (ex - E) ->
  fexp prec emax (Zdigits2 K + ex) = ex ->
  let r1 := shr_fexp prec emax M E loc_Exact in
  let R := round_nearest_even (shr_m (fst r1)) (loc_of_shr_record (fst r1)) in
  0 <= R /\ snd r1 <= ex /\ R <= K * 2 ^ (ex - snd r1).
Proof.
  intros HM HK HE Hle Hcan. cbv zeta. unfold shr_fexp.
  set (n := fexp prec emax (Zdigits2 M + E) - E).
  assert (Hd : Zdigits2 M + E <= Zdigits2 K + ex).
  { rewrite !Zdigits2_pos_log2 by lia.
    assert (Z.log2 M <= Z.log2 (K * 2 ^ (ex - E))) by (apply Z.log2_le_mono; lia).
    rewrite Z.log2_mul_pow2 in H by lia. lia. }
  assert (Hn : E + Z.max 0 n <= ex).
  { unfold n. rewrite fexp_eq in *. lia. }
  destruct (@shr_spec (shr_record_of_loc M loc_Exact) E n) as (Hs & Hq & Hl).
  { rewrite shr_m_of_loc. lia. }
  rewrite shr_m_of_loc in Hq, Hl. cbn [shr_record_of_loc shr_r shr_s orb] in Hl.
  set (r1 := shr (shr_record_of_loc M loc_Exact) E n) in *.
  rewrite Hs, Hq.
  set (k := Z.max 0 n) in *.
  assert (Hk : 0 <= k) by (unfold k; lia).
  assert (Hp : 0 < 2 ^ k) by (apply Z.pow_pos_nonneg; lia).
  set (K' := K * 2 ^ (ex - (E + k))).
  assert (HK' : K * 2 ^ (ex - E) = K' * 2 ^ k).
  { unfold K'. rewrite <- Z.mul_assoc, <- Z.pow_add_r by lia. do 2 f_equal. lia. }
  assert (Hq0 : 0 <= M / 2 ^ k) by (apply Z.div_pos; lia).
  assert (Hq1 : M / 2 ^ k <= K').
  { apply Z.div_le_upper_bound; [lia|]. rewrite Z.mul_comm. lia. }
  destruct (round_nearest_even_cases (M / 2 ^ k) (loc_of_shr_record (fst r1)))
    as [-> | [-> Hne]].
  - repeat split; lia.
  - repeat split; try lia.
    apply loc_exact_bits in Hne. destruct (Hl Hne) as [Hf|Hmod]; [discriminate|].
    destruct (Z.eq_dec (M / 2 ^ k) K') as [Eq|Ne]; [|lia].
    exfalso. apply Hmod.
    pose proof (Z.div_mod M (2 ^ k) ltac:(lia)) as Hdm.
    pose proof (Z.mod_pos_bound M (2 ^ k) Hp) as Hb.
    rewrite Eq in Hdm. lia.
Qed.

(** The second step, which renormalises the rounded mantissa. *)
Lemma second_shift_bound (R e' K ex : Z) :
  0 <= R -> 0 < K -> e' <= ex -> R <= K * 2 ^ (ex - e') ->
  fexp prec emax (Zdigits2 K + ex) = ex ->
  let r2 := shr_fexp prec emax R e' loc_Exact in
  0 <= shr_m (fst r2) /\ snd r2 <= ex.
Proof.
  intros HR HK HE Hle Hcan. cbv zeta. unfold shr_fexp.
  set (n := fexp prec emax (Zdigits2 R + e') - e').
  assert (HdK : 1 <= Zdigits2 K).
  { rewrite Zdigits2_pos_log2 by lia. pose proof (Z.log2_nonneg K). lia. }
  assert (Hd : Zdigits2 R + e' <= Zdigits2 K + ex).
  { destruct (Z.eq_dec R 0) as [->|Hnz]; [cbn; lia|].
    rewrite !Zdigits2_pos_log2 by lia.
    assert (Z.log2 R <= Z.log2 (K * 2 ^ (ex - e'))) by (apply Z.log2_le_mono; lia).
    rewrite Z.log2_mul_pow2 in H by lia. lia. }
  assert (Hn : e' + Z.max 0 n <= ex).
  { unfold n. rewrite fexp_eq in *. lia. }
  destruct (@shr_spec (shr_record_of_loc R loc_Exact) e' n) as (Hs & Hq & _).
  { rewrite shr_m_of_loc. lia. }
  rewrite shr_m_of_loc in Hq. rewrite Hs, Hq. split; [|lia].
  apply Z.div_pos; [lia|]. apply Z.pow_pos_nonneg; lia.
Qed.

Lemma binary_round_aux_unfold (s : bool) (M E : Z) (l : location) :
  binary_round_aux prec emax s M E l
  = let r1 := shr_fexp prec emax M E l in
    let R := round_nearest_even (shr_m (fst r1)) (loc_of_shr_record (fst r1)) in
    let r2 := shr_fexp prec emax R (snd r1) loc_Exact in
    match shr_m (fst r2) with
    | Z0 => S754_zero s
    | Zpos m => if snd r2 <=? emax - prec then S754_finite s m (snd r2) else S754_infinity s
    | Zneg _ => S754_nan
    end.
Proof.
  unfold binary_round_aux. cbv zeta.
  destruct (shr_fexp prec emax M E l) as [mrs' e']. cbn [fst snd].
  destruct (shr_fexp prec emax _ e' loc_Exact) as [mrs'' e'']. reflexivity.
Qed.

Lemma binary_round_aux_bounded (M E : Z) (mx : positive) (ex : Z) :
  0 < M -> E <= ex -> M <= Zpos mx * 2 ^ (ex - E) ->
  SpecFloat.bounded prec emax mx ex = true ->
  nonneg_finite (binary_round_aux prec emax false M E loc_Exact).
Proof.
  intros HM HE Hle Hb. unfold SpecFloat.bounded, canonical_mantissa in Hb.
  apply andb_prop in Hb. destruct Hb as [Hc Hmax].
  apply Z.eqb_eq in Hc. apply Z.leb_le in Hmax.
  change (Z.pos (digits2_pos mx)) with (Zdigits2 (Zpos mx)) in Hc.
  rewrite binary_round_aux_unfold. cbv zeta.
  destruct (@first_shift_bound M E (Zpos mx) ex HM ltac:(lia) HE Hle Hc) as (HR & He & HRle).
  cbv zeta in HR, He, HRle.
  destruct (@second_shift_bound _ _ (Zpos mx) ex HR ltac:(lia) He HRle Hc) as (Hm2 & He2).
  cbv zeta in Hm2, He2.
  set (r1 := shr_fexp prec emax M E loc_Exact) in *.
  set (R := round_nearest_even (shr_m (fst r1)) (loc_of_shr_record (fst r1))) in *.
  set (r2 := shr_fexp prec emax R (snd r1) loc_Exact) in *.
  destruct (shr_m (fst r2)) as [|m|m]; [exact I| |lia].
  replace (snd r2 <=? emax - prec) with true by (symmetry; apply Z.leb_le; lia).
  exact I.
Qed.

Lemma pos_iter_xO (m d : positive) : Zpos (Pos.iter xO m d) = Zpos m * 2 ^ Zpos d.
Proof.
  induction d as [|d IH] using Pos.peano_ind.
  - cbn [Pos.iter]. rewrite Pos2Z.inj_xO. change (2 ^ 1) with 2. lia.
  - rewrite Pos.iter_succ, Pos2Z.inj_xO, IH, Pos2Z.inj_succ, Z.pow_succ_r by lia. lia.
Qed.

Lemma shl_align_spec (mx : positive) (ex t : Z) :
  snd (shl_align mx ex t) = Z.min ex t
  /\ Zpos (fst (shl_align mx ex t)) = Zpos mx * 2 ^ (ex - Z.min ex t).
Proof.
  unfold shl_align. destruct (t - ex) as [|d|d] eqn:E; cbn [fst snd].
  - rewrite Z.min_l by lia. rewrite Z.sub_diag. cbn [Z.pow]. lia.
  - rewrite Z.min_l by lia. rewrite Z.sub_diag. cbn [Z.pow]. lia.
  - rewrite Z.min_r by lia. rewrite pos_iter_xO. split; [reflexivity|].
    do 2 f_equal. lia.
Qed.

Lemma binary_round_bounded (p : positive) (ez : Z) (mx : positive) (ex : Z) :
  ez <= ex -> Zpos p <= Zpos mx * 2 ^ (ex - ez) ->
  SpecFloat.bounded prec emax mx ex = true ->
  nonneg_finite (binary_round prec emax false p ez).
Proof.
  intros He Hle Hb. unfold binary_round.
  set (t := fexp prec emax (Z.pos (digits2_pos p) + ez)).
  destruct (shl_align_spec p ez t) as [Hs Hf].
  destruct (shl_align p ez t) as [mz ez']. cbn [fst snd] in Hs, Hf.
  apply binary_round_aux_bounded with (mx := mx) (ex := ex); [lia|lia| |exact Hb].
  rewrite Hf, Hs.
  assert (Hp : 0 < 2 ^ (ez - Z.min ez t)) by (apply Z.pow_pos_nonneg; lia).
  replace (ex - Z.min ez t) with ((ex - ez) + (ez - Z.min ez t)) by lia.
  rewrite Z.pow_add_r by lia. nia.
Qed.

Lemma bounded_facts (m : positive) (e : Z) :
  SpecFloat.bounded prec emax m e = true ->
  Zdigits2 (Zpos m) <= 53 /\ -1074 <= e /\ (-1074 < e -> Zdigits2 (Zpos m) = 53).
Proof.
  unfold SpecFloat.bounded, canonical_mantissa. intros H. apply andb_prop in H.
  destruct H as [Hc _]. apply Z.eqb_eq in Hc.
  change (Z.pos (digits2_pos m)) with (Zdigits2 (Zpos m)) in Hc.
  rewrite fexp_eq in Hc. lia.
Qed.

(** Aligned mantissas compare as the floats do. *)
Lemma aligned_order (mx : positive) (ex : Z) (my : positive) (ey : Z) :
  SpecFloat.bounded prec emax mx ex = true -> SpecFloat.bounded prec emax my ey = true ->
  SFltb (S754_finite false mx ex) (S754_finite false my ey) = false ->
  Zpos (fst (shl_align my ey (Z.min ex ey))) <= Zpos (fst (shl_align mx ex (Z.min ex ey))).
Proof.
  intros Hbx Hby Hlt.
  destruct (shl_align_spec mx ex (Z.min ex ey)) as [_ ->].
  destruct (shl_align_spec my ey (Z.min ex ey)) as [_ ->].
  destruct (bounded_facts _ _ Hbx) as (Hdx & Hex & Hnx).
  destruct (bounded_facts _ _ Hby) as (Hdy & Hey & Hny).
  unfold SFltb, SFcompare in Hlt.
  destruct (Z.compare_spec ex ey) as [E|L|G]; [| discriminate |].
  - subst ey. replace (Z.min ex (Z.min ex ex)) with ex by lia.
    rewrite Z.sub_diag. cbn [Z.pow].
    change (Pos.compare_cont Eq mx my) with (mx ?= my)%positive in Hlt.
    destruct (Pos.compare_spec mx my) as [E|L|G]; try discriminate; lia.
  - replace (Z.min ex ey) with ey by lia.
    replace (Z.min ey ey) with ey by lia. replace (Z.min ex ey) with ey by lia.
    rewrite Z.sub_diag. cbn [Z.pow].
    pose proof (Zdigits2_bounds my) as [_ Hmy].
    pose proof (Zdigits2_bounds mx) as [Hmx _].
    rewrite (Hnx ltac:(lia)) in Hmx. change (2 ^ (53 - 1)) with (2 ^ 52) in Hmx.
    assert (Hmy' : Zpos my < 2 ^ 53).
    { eapply Z.lt_le_trans; [exact Hmy|]. apply Z.pow_le_mono_r; lia. }
    assert (Hp : 2 ^ 1 <= 2 ^ (ex - ey)) by (apply Z.pow_le_mono_r; lia).
    change (2 ^ 1) with 2 in Hp. change (2 ^ 53) with (2 * 2 ^ 52) in Hmy'.
    nia.
Qed.

Lemma SFsub_nonneg (x y : spec_float) :
  valid_binary x = true -> valid_binary y = true ->
  nonneg_finite x ->
  nonneg_finite y \/ y = S754_infinity false ->
  SFltb x y = false ->
  nonneg_finite (SFsub prec emax x y).
Proof.
  intros Hvx Hvy Hx Hy Hlt.
  destruct x as [[|]| | |[|] mx ex]; try contradiction;
    destruct Hy as [Hy | ->]; try discriminate;
    destruct y as [[|]| | |[|] my ey]; try contradiction; try discriminate;
    try exact I.
  change (SpecFloat.bounded prec emax mx ex = true) in Hvx.
  change (SpecFloat.bounded prec emax my ey = true) in Hvy.
  pose proof (aligned_order _ _ _ _ Hvx Hvy Hlt) as Hord.
  cbn [SFsub cond_Zopp].
  destruct (shl_align_spec mx ex (Z.min ex ey)) as [_ HX].
  set (MX := Zpos (fst (shl_align mx ex (Z.min ex ey)))) in *.
  set (MY := Zpos (fst (shl_align my ey (Z.min ex ey)))) in *.
  assert (HMY : 0 < MY) by (unfold MY; lia).
  destruct (MX - MY) as [|p|p] eqn:Ed; cbn [binary_normalize]; [exact I| |lia].
  apply binary_round_bounded with (mx := mx) (ex := ex); [lia| |exact Hvx].
  replace (Z.min ex (Z.min ex ey)) with (Z.min ex ey) in HX by lia.
  rewrite <- HX. lia.
Qed.

Lemma shr_fexp_nonneg (m e : Z) (l : location) :
  0 <= m -> 0 <= shr_m (fst (shr_fexp prec emax m e l)).
Proof.
  intros Hm. unfold shr_fexp.
  destruct (@shr_spec (shr_record_of_loc m l) e
              (fexp prec emax (Zdigits2 m + e) - e)) as (_ & Hq & _).
  { rewrite shr_m_of_loc. exact Hm. }
  rewrite Hq, shr_m_of_loc. apply Z.div_pos; [lia|]. apply Z.pow_pos_nonneg; lia.
Qed.

Lemma binary_round_aux_has_sign (s : bool) (M E : Z) (l : location) :
  0 <= M -> has_sign s (binary_round_aux prec emax s M E l).
Proof.
  intros HM. rewrite binary_round_aux_unfold. cbv zeta.
  set (r1 := shr_fexp prec emax M E l).
  set (R := round_nearest_even (shr_m (fst r1)) (loc_of_shr_record (fst r1))).
  assert (H1 : 0 <= shr_m (fst r1)) by (apply shr_fexp_nonneg; exact HM).
  assert (HR : 0 <= R).
  { unfold R. destruct (round_nearest_even_cases (shr_m (fst r1))
                          (loc_of_shr_record (fst r1))) as [-> | [-> _]]; lia. }
  pose proof (shr_fexp_nonneg (snd r1) loc_Exact HR) as H2.
  destruct (shr_m (fst (shr_fexp prec emax R (snd r1) loc_Exact))) as [|m|m];
    [reflexivity| |lia].
  destruct (_ <=? _); reflexivity.
Qed.

Lemma binary_round_has_sign (s : bool) (m : positive) (e : Z) :
  has_sign s (binary_round prec emax s m e).
Proof.
  unfold binary_round. destruct (shl_align m e _) as [mz ez].
  apply binary_round_aux_has_sign. lia.
Qed.

Lemma SFdiv_nonneg (x y : spec_float) :
  has_sign false x -> has_sign false y ->
  (forall s, y <> S754_zero s) -> (forall s, x <> S754_infinity s) ->
  has_sign false (SFdiv prec emax x y).
Proof.
  intros Hx Hy Hnz Hni.
  destruct x as [sx|sx| |sx mx ex]; cbn in Hx; try contradiction; subst;
    try (exfalso; eapply Hni; reflexivity);
    destruct y as [sy|sy| |sy my ey]; cbn in Hy; try contradiction; subst;
    try (exfalso; eapply Hnz; reflexivity); try reflexivity.
  cbn [SFdiv xorb]. unfold SFdiv_core_binary. cbv zeta.
  set (m' := match _ - _ with Z0 => Z.pos mx | Zpos _ => Z.shiftl (Z.pos mx) _ | Zneg _ => 0 end).
  assert (Hm' : 0 <= m').
  { unfold m'. destruct (_ - _); [lia| |lia]. apply Z.shiftl_nonneg. lia. }
  pose proof (Z_div_mod m' (Z.pos my) ltac:(lia)) as Hdm.
  destruct (Z.div_eucl m' (Z.pos my)) as [q r].
  apply binary_round_aux_has_sign. nia.
Qed.

(** ** Primitive floats *)

Local Open Scope float_scope.

Lemma nonneg_finite_has_sign (x : spec_float) : nonneg_finite x -> has_sign false x.
Proof. destruct x as [[|]|[|]| |[|] m e]; cbn; tauto. Qed.




Lemma float_sub_diag (x : float) : nonneg_finite (Prim2SF x) -> x - x = 0.
Proof.
  intros H. apply Prim2SF_inj. rewrite sub_spec.
  destruct (Prim2SF x) as [[|]|[|]| |[|] m e]; cbn in H; try contradiction;
    [reflexivity|].
  unfold SF64sub. cbn [SFsub cond_Zopp]. rewrite Z.sub_diag. reflexivity.
Qed.


Lemma positive_has_sign (x : float) : (0 <? x) = true -> has_sign false (Prim2SF x).
Proof.
  rewrite ltb_spec. change (Prim2SF 0) with (S754_zero false).
  destruct (Prim2SF x) as [[|]|[|]| |[|] m e]; cbn; congruence.
Qed.



Section ZeroRate.

Import Binary64.
Local Open Scope py_scope.

Variable libm_pow : float -> float -> float.

Let B64 : PyFloat float := binary64 libm_pow.
#[local] Existing Instance B64.



End ZeroRate.

Local Open Scope Z_scope.

(** Rounding a canonical mantissa that was only shifted left gives it back. *)
Lemma binary_round_aux_exact (s : bool) (mx : positive) (ex k : Z) :
  SpecFloat.bounded prec emax mx ex = true -> 0 <= k ->
  binary_round_aux prec emax s (Zpos mx * 2 ^ k) (ex - k) loc_Exact
  = S754_finite s mx ex.
Proof.
  intros Hb Hk. unfold SpecFloat.bounded, canonical_mantissa in Hb.
  apply andb_prop in Hb. destruct Hb as [Hc Hmax].
  apply Z.eqb_eq in Hc. apply Z.leb_le in Hmax.
  change (Z.pos (digits2_pos mx)) with (Zdigits2 (Zpos mx)) in Hc.
  assert (Hp : 0 < 2 ^ k) by (apply Z.pow_pos_nonneg; lia).
  assert (Hd : Zdigits2 (Zpos mx * 2 ^ k) = Zdigits2 (Zpos mx) + k).
  { rewrite !Zdigits2_pos_log2 by lia. rewrite Z.log2_mul_pow2 by lia. lia. }
  rewrite binary_round_aux_unfold. cbv zeta.
  set (r1 := shr_fexp prec emax (Zpos mx * 2 ^ k) (ex - k) loc_Exact).
  assert (H1 : snd r1 = ex /\ shr_m (fst r1) = Zpos mx
               /\ loc_of_shr_record (fst r1) = loc_Exact).
  { unfold r1, shr_fexp. rewrite Hd.
    replace (Zdigits2 (Z.pos mx) + k + (ex - k)) with (Zdigits2 (Z.pos mx) + ex) by lia.
    rewrite Hc. replace (ex - (ex - k)) with k by lia.
    destruct (@shr_spec (shr_record_of_loc (Z.pos mx * 2 ^ k) loc_Exact) (ex - k) k)
      as (Hs & Hq & Hl).
    { rewrite shr_m_of_loc. lia. }
    rewrite shr_m_of_loc in Hq, Hl. rewrite Z.max_r in Hs, Hq, Hl by lia.
    rewrite Z.div_mul in Hq by lia. rewrite Z.mod_mul in Hl by lia.
    split; [lia|]. split; [exact Hq|].
    destruct (fst (shr _ (ex - k) k)) as [m [|] [|]]; cbn in Hl |- *;
      try reflexivity; destruct Hl as [Hl|Hl]; try reflexivity; try discriminate;
      exfalso; apply Hl; reflexivity. }
  destruct H1 as (E1 & E2 & E3). rewrite E1, E2, E3. cbn [round_nearest_even].
  unfold shr_fexp. rewrite Hc, Z.sub_diag. cbn [shr shr_record_of_loc fst snd shr_m].
  replace (ex <=? emax - prec) with true by (symmetry; apply Z.leb_le; lia).
  reflexivity.
Qed.

Local Open Scope float_scope.

Lemma float_mul_one_r (x : float) : x * 1 = x.
Proof.
  apply Prim2SF_inj. rewrite mul_spec.
  pose proof (Prim2SF_valid x) as Hv.
  change (Prim2SF 1) with (S754_finite false 4503599627370496 (-52)).
  destruct (Prim2SF x) as [[|]|[|]| |s m e]; try reflexivity.
  change (SpecFloat.bounded prec emax m e = true) in Hv.
  unfold SF64mul. cbn [SFmul]. rewrite xorb_false_r.
  rewrite Pos2Z.inj_mul. change (Z.pos 4503599627370496) with (2 ^ 52)%Z.
  change (e + -52)%Z with (e - 52)%Z.
  apply binary_round_aux_exact; [exact Hv|lia].
Qed.

Lemma has_sign_is_number (s : bool) (x : spec_float) : has_sign s x -> is_number x.
Proof. destruct x; cbn; tauto. Qed.

Lemma binary_normalize_is_number (m e : Z) :
  is_number (binary_normalize prec emax m e false).
Proof.
  destruct m as [|p|p]; cbn [binary_normalize]; [exact I| |];
    eapply has_sign_is_number; apply binary_round_has_sign.
Qed.

Lemma SF2Prim_is_number (x : spec_float) :
  is_number x -> is_number (Prim2SF (SF2Prim x)).
Proof.
  destruct x as [[|]|[|]| |s m e]; cbn [is_number]; try tauto; try (intros _; exact I).
  intros _. cbn [SF2Prim].
  set (pm := of_uint63 (Uint63.of_Z (Z.pos m))).
  assert (H : is_number (Prim2SF (Z.ldexp pm e))).
  { rewrite Z_ldexp_spec. unfold pm. rewrite of_uint63_spec.
    pose proof (binary_normalize_is_number (Uint63.to_Z (Uint63.of_Z (Z.pos m))) 0) as Hn.
    destruct (binary_normalize prec emax _ 0 false) as [s'|s'| |s' m' e'];
      try exact Hn. cbn [SFldexp].
    eapply has_sign_is_number; apply binary_round_has_sign. }
  destruct s; [|exact H]. rewrite opp_spec.
  destruct (Prim2SF (Z.ldexp pm e)); cbn in *; tauto.
Qed.

Lemma float_of_int_is_number (n : Z) : is_number (Prim2SF (Binary64.float_of_int n)).
Proof. apply SF2Prim_is_number. apply binary_normalize_is_number. Qed.

Lemma SFeqb_refl_number (x : spec_float) : is_number x -> SFeqb x x = true.
Proof.
  destruct x as [[|]|[|]| |[|] m e]; cbn; try tauto; intros _;
    unfold SFeqb, SFcompare; rewrite Z.compare_refl;
    change (Pos.compare_cont Eq m m) with (m ?= m)%positive;
    rewrite Pos.compare_refl; reflexivity.
Qed.

Lemma is_nan_spec (x : float) : is_nan x = true -> Prim2SF x = S754_nan.
Proof.
  unfold is_nan. rewrite eqb_spec. intros H.
  destruct (Prim2SF x) eqn:E; try reflexivity;
    rewrite SFeqb_refl_number in H by exact I; discriminate.
Qed.

Lemma is_infinity_spec (x : float) :
  is_infinity x = true -> exists s, Prim2SF x = S754_infinity s.
Proof.
  unfold is_infinity. rewrite eqb_spec, abs_spec.
  change (Prim2SF infinity) with (S754_infinity false).
  destruct (Prim2SF x) as [s|s| |s m e]; cbn; try discriminate.
  intros _. now exists s.
Qed.

Lemma not_infinity_spec (x : float) :
  is_infinity x = false -> forall s, Prim2SF x <> S754_infinity s.
Proof.
  unfold is_infinity. rewrite eqb_spec, abs_spec.
  change (Prim2SF infinity) with (S754_infinity false).
  intros H s E. rewrite E in H. discriminate.
Qed.

Section Compound.

Import Binary64.
Local Open Scope py_scope.

Variable libm_pow : float -> float -> float.

Let B64 : PyFloat float := binary64 libm_pow.
#[local] Existing Instance B64.

Lemma float_pow_one (w : float) : float_pow libm_pow 1 w = Ok 1.
Proof.
  unfold float_pow.
  change (is_nan 1) with false. change (1 =? 1) with true.
  change (abs 1 =? 1) with true. change (is_infinity 1) with false.
  change (1 =? 0) with false. change (1 <? 0) with false. cbn [andb].
  destruct (w =? 0); [reflexivity|].
  destruct (is_nan w); [reflexivity|].
  destruct (is_infinity w); reflexivity.
Qed.

Lemma float_pow_zero_exponent (v w : float) : (w =? 0) = true -> float_pow libm_pow v w = Ok 1.
Proof. intros H. unfold float_pow. now rewrite H. Qed.

Lemma to_float_b64 (n : Z) (nf : float) :
  to_float n = Ok nf ->
  nf = float_of_int n /\ is_number (Prim2SF nf)
  /\ forall s, Prim2SF nf <> S754_infinity s.
Proof.
  unfold to_float. change (int_fits n) with (negb (is_infinity (float_of_int n))).
  destruct (is_infinity (float_of_int n)) eqn:Hi; cbn [negb]; [discriminate|].
  intros H. injection H as <-. split; [reflexivity|]. split.
  - apply float_of_int_is_number.
  - apply not_infinity_spec. exact Hi.
Qed.

Lemma one_plus_zero_quotient (nf : float) :
  is_number (Prim2SF nf) -> (nf =? 0) = false -> 1 + 0 / nf = 1.
Proof.
  intros Hn Hz. rewrite eqb_spec in Hz. change (Prim2SF 0) with (S754_zero false) in Hz.
  apply Prim2SF_inj. rewrite add_spec, div_spec.
  change (Prim2SF 0) with (S754_zero false).
  destruct (Prim2SF nf) as [s|s| |s m e]; cbn in Hn, Hz; try contradiction;
    try discriminate; reflexivity.
Qed.

Lemma finite_times_zero (nf : float) :
  is_number (Prim2SF nf) -> (forall s, Prim2SF nf <> S754_infinity s) ->
  (nf * 0 =? 0) = true.
Proof.
  intros Hn Hi. rewrite eqb_spec, mul_spec. change (Prim2SF 0) with (S754_zero false).
  destruct (Prim2SF nf) as [s|s| |s m e]; cbn in Hn; try contradiction;
    try reflexivity.
  exfalso. eapply Hi. reflexivity.
Qed.

(** X9: in binary64, at rate 0 compound_interest returns the principal as
    the amount, bit for bit, for every time and every compounding frequency
    whose float is not zero: 1 ** w is 1.0 for every w, NaN included. *)
Theorem compound_zero_rate (principal years nf : float) (n : Z) :
  to_float n = Ok nf -> feqb nf 0 = false ->
  compound_interest principal 0 years n
  = Ok {| ci_principal := principal;
          ci_amount := principal;
          ci_interest := principal - principal |}.
Proof.
  intros Hf Hz. destruct (to_float_b64 _ Hf) as (_ & Hn & _).
  unfold compound_interest.
  change (truediv 0 (of_int 100)) with (Ok (A := float) 0). cbn [bind].
  rewrite Hf. cbn [bind]. unfold truediv.
  change (of_int 0) with 0. rewrite Hz. cbn [bind].
  change (fadd (of_int 1) (fdiv 0 nf)) with (1 + 0 / nf).
  rewrite one_plus_zero_quotient by assumption.
  change (fpow 1 (fmul nf years)) with (float_pow libm_pow 1 (nf * years)).
  rewrite float_pow_one. cbn [bind].
  change (fmul principal 1) with (principal * 1). rewrite float_mul_one_r. reflexivity.
Qed.

(** X10: in binary64, over 0 years compound_interest returns the principal
    as the amount, at every rate and every compounding frequency whose float
    is not zero: v ** 0.0 is 1.0 for every v. *)
Theorem compound_zero_time (principal rate nf : float) (n : Z) :
  to_float n = Ok nf -> feqb nf 0 = false ->
  compound_interest principal rate 0 n
  = Ok {| ci_principal := principal;
          ci_amount := principal;
          ci_interest := principal - principal |}.
Proof.
  intros Hf Hz. destruct (to_float_b64 _ Hf) as (_ & Hn & Hi).
  unfold compound_interest.
  change (truediv rate (of_int 100)) with (Ok (rate / 100)). cbn [bind].
  rewrite Hf. cbn [bind]. unfold truediv.
  change (of_int 0) with 0. rewrite Hz. cbn [bind].
  change (fpow (fadd (of_int 1) (fdiv (rate / 100) nf)) (fmul nf 0))
    with (float_pow libm_pow (1 + rate / 100 / nf) (nf * 0)).
  rewrite float_pow_zero_exponent by (apply finite_times_zero; assumption).
  cbn [bind].
  change (fmul principal 1) with (principal * 1). rewrite float_mul_one_r. reflexivity.
Qed.

(** X11: in binary64, a term whose years * 12 is NaN makes monthly_payment
    and amortization_schedule raise ValueError, and one whose years * 12 is
    infinite makes them raise OverflowError, at every principal and rate:
    [round] cannot convert them to an int. *)
Theorem term_must_be_finite (principal rate years : float) :
  (is_nan (years * 12) = true ->
     monthly_payment principal rate years = Raise ValueError
     /\ amortization_schedule principal rate years = Raise ValueError)
  /\ (is_infinity (years * 12) = true ->
     monthly_payment principal rate years = Raise OverflowError
     /\ amortization_schedule principal rate years = Raise OverflowError).
Proof.
  unfold monthly_payment, amortization_schedule.
  change (monthly_rate_of rate) with (Ok (rate / 100 / 12)). cbn [bind].
  change (n_payments_of years) with (round_to_int (years * 12)).
  unfold round_to_int. split; intros H.
  - apply is_nan_spec in H. rewrite H. split; reflexivity.
  - apply is_infinity_spec in H. destruct H as [s H]. rewrite H. split; reflexivity.
Qed.

End Compound.

Section WholeMonths.

Import Binary64.
Local Open Scope py_scope.
Local Open Scope Z_scope.

Variable libm_pow : float -> float -> float.

Let B64 : PyFloat float := binary64 libm_pow.
#[local] Existing Instance B64.

Lemma nearest_even_integer (m e : Z) :
  0 < m -> e < 0 -> m mod 2 ^ (- e) = 0 -> nearest_even m e = m / 2 ^ (- e).
Proof.
  intros Hm He Hmod. unfold nearest_even.
  replace (0 <=? e) with false by (symmetry; apply Z.leb_gt; lia).
  cbv zeta. rewrite Hmod. cbn [Z.mul].
  assert (0 < 2 ^ (- e)) by (apply Z.pow_pos_nonneg; lia).
  destruct (Z.compare_spec 0 (2 ^ (- e))); first [reflexivity|lia].
Qed.

(** X12: in binary64, when years * 12 is an integer k, the period count is
    k itself. *)
Theorem n_payments_whole_months (years : float) (k : Z) :
  integer_value (years * 12)%float = Some k ->
  n_payments_of years = Ok k.
Proof.
  unfold integer_value, scaled_integer_value, n_payments_of.
  change (round_int (fmul years (of_int 12))) with (round_to_int (years * 12)%float).
  unfold round_to_int.
  destruct (Prim2SF (years * 12)%float) as [s|s| |s m e]; try discriminate.
  - intros H. now injection H as <-.
  - cbv zeta. rewrite Z.add_0_r. destruct (Z.leb_spec 0 e) as [Hle|Hlt].
    + intros H. injection H as <-. unfold nearest_even.
      replace (0 <=? e) with true by (symmetry; apply Z.leb_le; lia). reflexivity.
    + destruct (Z.eqb_spec (Z.pos m mod 2 ^ (- e)) 0) as [Hm|Hm]; [|discriminate].
      intros H. injection H as <-.
      rewrite nearest_even_integer by lia. reflexivity.
Qed.

End WholeMonths.

End Binary64Rounding.

(** ** The clamp of the balance, in binary64 *)

Section Binary64Clamp.

Import Binary64.

Lemma binary_normalize_nonneg (m e : Z) :
  0 <= m -> has_sign false (binary_normalize prec emax m e false).
Proof.
  intros Hm. destruct m as [|p|p]; cbn [binary_normalize]; [reflexivity| |lia].
  apply binary_round_has_sign.
Qed.

Lemma SF2Prim_has_sign (s : bool) (x : spec_float) :
  has_sign s x -> has_sign s (Prim2SF (SF2Prim x)).
Proof.
  destruct x as [s'|s'| |s' m e]; cbn [has_sign]; try tauto.
  - intros <-. destruct s'; reflexivity.
  - intros <-. destruct s'; reflexivity.
  - intros <-. cbn [SF2Prim].
    set (pm := of_uint63 (Uint63.of_Z (Z.pos m))).
    assert (H : has_sign false (Prim2SF (Z.ldexp pm e))).
    { rewrite Z_ldexp_spec. unfold pm. rewrite of_uint63_spec.
      pose proof (@binary_normalize_nonneg (Uint63.to_Z (Uint63.of_Z (Z.pos m))) 0) as Hn.
      specialize (Hn ltac:(pose proof (Uint63.to_Z_bounded (Uint63.of_Z (Z.pos m))); lia)).
      destruct (binary_normalize prec emax _ 0 false) as [s0|s0| |s0 m0 e0];
        cbn [has_sign] in Hn; try exact Hn. subst s0. cbn [SFldexp].
      apply binary_round_has_sign. }
    destruct s'; [|exact H]. rewrite opp_spec.
    destruct (Prim2SF (Z.ldexp pm e)); cbn in *; subst; tauto.
Qed.

Local Open Scope float_scope.

Lemma has_sign_not_negative (x : float) :
  has_sign false (Prim2SF x) -> (x <? 0) = false.
Proof.
  rewrite ltb_spec. change (Prim2SF 0) with (S754_zero false).
  destruct (Prim2SF x) as [s|s| |s m e]; cbn; try tauto; intros ->; reflexivity.
Qed.

Lemma round_2_not_negative (x : float) : (x <? 0) = false -> (round_2 x <? 0) = false.
Proof.
  intros Hx. unfold round_2.
  destruct (Prim2SF x) as [s|s| |s m e] eqn:E; try exact Hx.
  assert (Hs : s = false).
  { rewrite ltb_spec, E in Hx. change (Prim2SF 0) with (S754_zero false) in Hx.
    destruct s; [discriminate|reflexivity]. }
  subst s. unfold nearest_quotient.
  destruct (nearest_even (100 * Z.pos m) e) as [|p|p]; try reflexivity.
  apply has_sign_not_negative. apply SF2Prim_has_sign.
  apply SFdiv_nonneg; try reflexivity; intros s H; discriminate.
Qed.

Variable libm_pow : float -> float -> float.

Let B64 : PyFloat float := binary64 libm_pow.
#[local] Existing Instance B64.

Lemma pymax_zero_not_negative (b : float) : (pymax b 0 <? 0) = false.
Proof.
  unfold pymax. change (fgtb 0 b) with (b <? 0).
  destruct (b <? 0) eqn:E; [reflexivity|exact E].
Qed.

Lemma schedule_loop_not_negative (mr : float) (months : list Z) :
  forall balance pay,
    Forall (fun r => (remaining_balance r <? 0) = false)
      (schedule_loop mr months balance pay).
Proof.
  induction months as [|k rest IH]; intros balance pay; [constructor|].
  cbn [schedule_loop]. constructor; [|apply IH].
  cbn [remaining_balance]. change (of_int 0) with 0.
  change (round2 ?x) with (round_2 x).
  apply round_2_not_negative. apply pymax_zero_not_negative.
Qed.

(** X22: in binary64, no row of any schedule shows a negative
    remaining_balance: [max(balance, 0.0)] and the rounding keep the field
    from comparing below zero, whatever the inputs (it can be NaN). *)
Theorem balance_never_shown_negative (principal rate years : float) (rows : list (row float)) :
  amortization_schedule principal rate years = Ok rows ->
  Forall (fun r => (remaining_balance r <? 0) = false) rows.
Proof.
  unfold amortization_schedule.
  destruct (monthly_rate_of rate) as [mr|e|]; cbn [bind]; try discriminate.
  destruct (n_payments_of years) as [n|e|]; cbn [bind]; try discriminate.
  destruct (monthly_payment principal rate years) as [pay|e|]; cbn [bind]; try discriminate.
  intros H. injection H as <-. apply schedule_loop_not_negative.
Qed.

End Binary64Clamp.

(** ** The final-payment correction in binary64 *)

Section Binary64Correction.

Import Binary64.
Local Open Scope float_scope.

Lemma zero_le_cases (x : float) :
  (0 <=? x) = true -> finite_rate (Prim2SF x) \/ Prim2SF x = S754_infinity false.
Proof.
  rewrite leb_spec. change (Prim2SF 0) with (S754_zero false).
  destruct (Prim2SF x) as [s|[|]| |[|] m e]; cbn; auto; discriminate.
Qed.

Lemma SFadd_has_sign (x y : spec_float) :
  has_sign false x -> has_sign false y -> has_sign false (SFadd prec emax x y).
Proof.
  destruct x as [sx|sx| |sx mx ex], y as [sy|sy| |sy my ey]; cbn [has_sign];
    try tauto; intros -> ->; try reflexivity.
  cbn [SFadd cond_Zopp]. apply binary_normalize_nonneg. lia.
Qed.

Lemma unsigned_sub (b pp : float) :
  unsigned (Prim2SF b) -> (b <? pp) = false -> unsigned (Prim2SF (b - pp)).
Proof.
  intros Hb Hlt. rewrite sub_spec. rewrite ltb_spec in Hlt.
  pose proof (Prim2SF_valid b) as Vb. pose proof (Prim2SF_valid pp) as Vp.
  destruct Hb as [Hb|Hb]; [rewrite Hb; left; reflexivity|].
  destruct (Prim2SF b) as [sb|sb| |sb mb eb]; cbn [has_sign] in Hb;
    try contradiction; subst sb.
  - destruct (Prim2SF pp) as [sp|[|]| |[|] mp ep]; cbn in Hlt |- *;
      try discriminate; try (left; reflexivity); try (right; reflexivity).
    destruct sp; right; reflexivity.
  - destruct (Prim2SF pp) as [sp|[|]| |sp mp ep]; cbn;
      try (left; reflexivity); right; reflexivity.
  - destruct (Prim2SF pp) as [sp|[|]| |[|] mp ep] eqn:Ep;
      try (left; reflexivity); try (right; reflexivity);
      try (cbn in Hlt; discriminate).
    + right. unfold SF64sub. cbn [SFsub cond_Zopp].
      apply binary_normalize_nonneg. lia.
    + right. apply nonneg_finite_has_sign.
      apply SFsub_nonneg; try assumption; cbn; auto.
Qed.

Lemma SFltb_not_nan_inf (b x : spec_float) :
  unsigned b -> SFltb b x = true -> nonneg_finite b.
Proof.
  intros [->|Hb] H; [discriminate|].
  destruct b as [sb|sb| |sb mb eb]; cbn [has_sign] in Hb; try contradiction;
    subst; cbn; auto.
  destruct x as [sx|[|]| |sx mx ex]; cbn in H; discriminate.
Qed.

Lemma SFltb_nan_r (b : spec_float) : SFltb b S754_nan = false.
Proof. destruct b as [s|s| |s m e]; reflexivity. Qed.

Lemma SFltb_neg_inf_r (b : spec_float) :
  unsigned b -> SFltb b (S754_infinity true) = false.
Proof.
  intros [->|Hb]; [reflexivity|].
  destruct b as [s|s| |s m e]; cbn [has_sign] in Hb; try contradiction; subst;
    reflexivity.
Qed.

Section Loop.

Variable libm_pow : float -> float -> float.

Let B64 : PyFloat float := binary64 libm_pow.
#[local] Existing Instance B64.

Lemma unsigned_not_negative (b : float) : unsigned (Prim2SF b) -> (b <? 0) = false.
Proof.
  intros [Hb|Hb]; [|now apply has_sign_not_negative].
  rewrite ltb_spec, Hb. reflexivity.
Qed.

Lemma correction_due_finite (mr pay b : float) :
  unsigned (Prim2SF b) -> (0 <=? mr) = true ->
  correction_due mr pay b = true ->
  nonneg_finite (Prim2SF b) /\ finite_rate (Prim2SF mr).
Proof.
  intros Hb Hmr. unfold correction_due.
  change (fgtb (fsub pay (fmul b mr)) b) with (b <? pay - b * mr).
  rewrite ltb_spec. intros H.
  pose proof (@SFltb_not_nan_inf _ _ Hb H) as Hf. split; [exact Hf|].
  destruct (@zero_le_cases _ Hmr) as [Hr|Hinf]; [exact Hr|exfalso].
  rewrite sub_spec, mul_spec, Hinf in H.
  destruct (Prim2SF b) as [sb|sb| |sb mb eb]; cbn in Hf; try contradiction;
    destruct sb; try contradiction.
  - cbn [SF64mul SFmul] in H. unfold SF64sub in H.
    destruct (Prim2SF pay); cbn in H; discriminate.
  - cbn [SF64mul SFmul xorb] in H. unfold SF64sub in H.
    destruct (Prim2SF pay) as [sp|[|]| |sp mp ep]; cbn in H; discriminate.
Qed.

Lemma corrected_payment_sign (mr b : float) :
  nonneg_finite (Prim2SF b) -> finite_rate (Prim2SF mr) ->
  has_sign false (Prim2SF (b * mr + b)).
Proof.
  intros Hb Hr. rewrite add_spec, mul_spec.
  destruct (Prim2SF b) as [sb|sb| |sb mb eb]; cbn in Hb; try contradiction;
    destruct sb; try contradiction;
    destruct (Prim2SF mr) as [sr|sr| |sr mm em]; cbn in Hr; try contradiction.
  - destruct sr; reflexivity.
  - destruct sr; [contradiction|reflexivity].
  - destruct sr; reflexivity.
  - destruct sr; [contradiction|].
    apply SFadd_has_sign; [|reflexivity].
    cbn [SF64mul SFmul xorb]. apply binary_round_aux_has_sign. lia.
Qed.

Lemma zero_times_rate (mr : float) :
  finite_rate (Prim2SF mr) -> exists s, Prim2SF (0 * mr) = S754_zero s.
Proof.
  intros Hr. rewrite mul_spec. change (Prim2SF 0) with (S754_zero false).
  destruct (Prim2SF mr) as [sr|sr| |sr mm em]; cbn in Hr; try contradiction.
  - eexists. reflexivity.
  - destruct sr; [contradiction|]. eexists. reflexivity.
Qed.

Lemma sub_signed_zero (p z : float) (s : bool) :
  has_sign false (Prim2SF p) -> Prim2SF z = S754_zero s -> p - z = p.
Proof.
  intros Hp Hz. apply Prim2SF_inj. rewrite sub_spec, Hz.
  destruct (Prim2SF p) as [sp|sp| |sp mp ep]; cbn in Hp; try contradiction;
    subst sp; destruct s; reflexivity.
Qed.

Lemma signed_zero_plus_zero (z : float) (s : bool) :
  Prim2SF z = S754_zero s -> z + 0 = 0.
Proof.
  intros Hz. apply Prim2SF_inj. rewrite add_spec, Hz. destruct s; reflexivity.
Qed.

Lemma not_positive_zero (p : float) :
  has_sign false (Prim2SF p) -> (0 <? p) = false -> p = 0.
Proof.
  intros Hp Hlt. apply Prim2SF_inj. rewrite ltb_spec in Hlt.
  change (Prim2SF 0) with (S754_zero false) in *.
  destruct (Prim2SF p) as [sp|sp| |sp mp ep]; cbn in Hp; try contradiction;
    subst sp; try reflexivity; cbn in Hlt; discriminate.
Qed.

(** After the correction the balance is 0.0: every later row pays nothing. *)
Lemma rows_after_correction (mr : float) (months : list Z) :
  finite_rate (Prim2SF mr) ->
  forall p, has_sign false (Prim2SF p) ->
    Forall (fun r => payment r = 0 /\ principal_paid r = 0 /\ remaining_balance r = 0)
      (schedule_loop (PF := unrounded B64) mr months 0 p).
Proof.
  intros Hr. destruct (@zero_times_rate _ Hr) as (s & Hz).
  induction months as [|k rest IH]; intros p Hp; [constructor|].
  cbn [schedule_loop].
  cbn [unrounded of_int int_fits fadd fsub fmul fdiv feqb fgtb fpow round_int round2 B64 binary64].
  change (float_of_int 0) with 0.
  rewrite (@sub_signed_zero p _ _ Hp Hz).
  destruct (0 <? p) eqn:Hpos.
  - rewrite (@signed_zero_plus_zero _ _ Hz).
    change (0 - 0) with 0.
    constructor; [|apply IH; reflexivity].
    cbn [payment principal_paid remaining_balance]. repeat split.
  - pose proof (@not_positive_zero _ Hp Hpos) as ->.
    change (0 - 0) with 0.
    constructor; [|apply IH; reflexivity].
    cbn [payment principal_paid remaining_balance]. repeat split.
Qed.

Lemma last_cons (A : Type) (l : list A) :
  forall x d : A, last (x :: l) d = last l x.
Proof.
  induction l as [|y l IH]; intros x d; [reflexivity|].
  change (last (x :: y :: l) d) with (last (y :: l) d).
  now rewrite (IH y d), (IH y x).
Qed.

Lemma opening_balance_cons (b : float) (r : row float) (l : list (row float)) :
  opening_balance b (r :: l) = opening_balance (remaining_balance r) l.
Proof. unfold opening_balance. cbn [map]. apply last_cons. Qed.

(** The loop, from any balance that is not negative: rows that carry the
    payment they were handed, then, if [payment - interest] ever exceeds the
    balance, one row that pays [interest + balance], and after it rows that
    pay nothing. *)
Lemma schedule_loop_phases (mr pay : float) (months : list Z) :
  (0 <=? mr) = true ->
  forall b, unsigned (Prim2SF b) ->
    exists plain tail,
      schedule_loop (PF := unrounded B64) mr months b pay = plain ++ tail
      /\ (forall l1 r l2, plain = l1 ++ r :: l2 ->
            correction_due mr pay (opening_balance b l1) = false
            /\ payment r = pay)
      /\ match tail with
         | [] => True
         | c :: zeros =>
             let b' := opening_balance b plain in
             correction_due mr pay b' = true
             /\ principal_paid c = b'
             /\ interest_paid c = b' * mr
             /\ payment c = b' * mr + b'
             /\ remaining_balance c = 0
             /\ Forall (fun r => payment r = 0 /\ principal_paid r = 0
                                 /\ remaining_balance r = 0) zeros
         end.
Proof.
  intros Hmr. induction months as [|k rest IH]; intros b Hb.
  - exists [], []. split; [reflexivity|]. split; [|exact I].
    intros [|? ?] ? ? E; discriminate.
  - destruct (correction_due mr pay b) eqn:Hdue.
    + destruct (@correction_due_finite _ _ _ Hb Hmr Hdue) as (Hf & Hr).
      exists [], (schedule_loop (PF := unrounded B64) mr (k :: rest) b pay).
      split; [reflexivity|]. split; [intros [|? ?] ? ? E; discriminate|].
      cbn [schedule_loop].
      cbn [unrounded of_int int_fits fadd fsub fmul fdiv feqb fgtb fpow round_int round2 B64 binary64].
      unfold correction_due in Hdue.
      cbn [fgtb fsub fmul B64 binary64] in Hdue. rewrite Hdue.
      change (float_of_int 0) with 0.
      rewrite (@float_sub_diag _ Hf).
      cbv zeta. unfold opening_balance. cbn [map last].
      cbn [payment principal_paid interest_paid remaining_balance].
      split; [unfold correction_due; cbn [fgtb fsub fmul B64 binary64]; exact Hdue|].
      repeat split.
      apply rows_after_correction; [exact Hr|].
      apply corrected_payment_sign; assumption.
    + unfold correction_due in Hdue.
      cbn [fgtb fsub fmul B64 binary64] in Hdue.
      pose proof (@unsigned_sub _ _ Hb Hdue) as Hb'.
      destruct (IH _ Hb') as (plain & tail & E & Hplain & Htail).
      set (r := {| month := k; payment := pay;
                   principal_paid := pay - b * mr;
                   interest_paid := b * mr;
                   remaining_balance := b - (pay - b * mr) |}).
      assert (Er : schedule_loop (PF := unrounded B64) mr (k :: rest) b pay
                   = r :: schedule_loop (PF := unrounded B64) mr rest
                            (b - (pay - b * mr)) pay).
      { cbn [schedule_loop].
        cbn [unrounded of_int int_fits fadd fsub fmul fdiv feqb fgtb fpow round_int round2 B64 binary64].
        rewrite Hdue. change (float_of_int 0) with 0. unfold pymax.
        cbn [unrounded fgtb B64 binary64].
        rewrite (@unsigned_not_negative _ Hb'). reflexivity. }
      exists (r :: plain), tail. split; [rewrite Er, E; reflexivity|]. split.
      * intros [|r0 l1] r1 l2 El; cbn [app] in El; injection El as <- El.
        -- split; [|reflexivity]. unfold opening_balance. cbn [map last].
           unfold correction_due. cbn [fgtb fsub fmul B64 binary64]. exact Hdue.
        -- rewrite opening_balance_cons. apply (Hplain _ _ _ El).
      * destruct tail as [|c zeros]; [exact I|].
        cbv zeta in Htail |- *. rewrite opening_balance_cons. exact Htail.
Qed.

Lemma schedule_of_payment (PF : PyFloat float) (principal rate years pay : float) :
  monthly_payment (PF := PF) principal rate years = Ok pay ->
  exists mr n,
    monthly_rate_of (PF := PF) rate = Ok mr
    /\ amortization_schedule (PF := PF) principal rate years
       = Ok (schedule_loop (PF := PF) mr (range 1 (n + 1)) principal pay)
    /\ amortization_schedule (PF := unrounded PF) principal rate years
       = Ok (schedule_loop (PF := unrounded PF) mr (range 1 (n + 1)) principal pay).
Proof.
  intros Hp. unfold amortization_schedule.
  change (monthly_rate_of (PF := unrounded PF) rate) with (monthly_rate_of (PF := PF) rate).
  change (n_payments_of (PF := unrounded PF) years) with (n_payments_of (PF := PF) years).
  change (monthly_payment (PF := unrounded PF) principal rate years)
    with (monthly_payment (PF := PF) principal rate years).
  rewrite Hp. unfold monthly_payment in Hp.
  destruct (monthly_rate_of rate) as [mr|e|]; cbn [bind] in Hp |- *; try discriminate.
  destruct (n_payments_of years) as [n|e|]; cbn [bind] in Hp |- *; try discriminate.
  exists mr, n. repeat split.
Qed.

(** C2 (as the code has it): in binary64, for a positive principal and a
    monthly rate that is not negative, the rows of the schedule fall into
    three runs.  The first rows are those in which [payment - interest] does
    not exceed the balance the row starts from; each shows the monthly
    payment, rounded.  If a row remains, [payment - interest] exceeds its
    opening balance: the correction runs there, the row shows
    [interest + balance] as payment and the balance as principal_paid, and
    its remaining_balance is 0.0.  Every row after it shows payment 0.0,
    principal_paid 0.0 and remaining_balance 0.0.  The corrected row is
    the last one only if the rounding of the payment leaves it there. *)
Theorem payment_constant_until_correction (principal rate years pay : float) :
  (0 <? principal) = true -> (0 <=? rate / 100 / 12) = true ->
  monthly_payment principal rate years = Ok pay ->
  let mr := rate / 100 / 12 in
  exists plain tail,
    amortization_schedule (PF := unrounded B64) principal rate years
    = Ok (plain ++ tail)
    /\ amortization_schedule principal rate years
       = Ok (map round_row (plain ++ tail))
    /\ (forall l1 r l2, plain = l1 ++ r :: l2 ->
          correction_due mr pay (opening_balance principal l1) = false
          /\ payment (round_row r) = round2 pay)
    /\ match tail with
       | [] => True
       | c :: zeros =>
           let b := opening_balance principal plain in
           correction_due mr pay b = true
           /\ payment (round_row c) = round2 (b * mr + b)
           /\ principal_paid (round_row c) = round2 b
           /\ remaining_balance (round_row c) = 0
           /\ Forall (fun r => payment (round_row r) = 0
                               /\ principal_paid (round_row r) = 0
                               /\ remaining_balance (round_row r) = 0) zeros
       end.
Proof.
  intros HP Hmr Hpay mr.
  destruct (@schedule_of_payment B64 _ _ _ _ Hpay) as (mr' & n & Emr & Es & Eu).
  change (monthly_rate_of rate) with (Ok mr) in Emr. injection Emr as <-.
  assert (Hb : unsigned (Prim2SF principal)) by (right; now apply positive_has_sign).
  destruct (@schedule_loop_phases mr pay (range 1 (n + 1)) Hmr principal Hb)
    as (plain & tail & E & Hplain & Htail).
  exists plain, tail. split; [rewrite Eu; f_equal; exact E|]. split.
  { rewrite Es. f_equal. rewrite schedule_loop_unrounded. f_equal. exact E. }
  split.
  - intros l1 r l2 El. destruct (Hplain _ _ _ El) as (Hd & Hp).
    split; [exact Hd|]. cbn [round_row payment]. now rewrite Hp.
  - destruct tail as [|c zeros]; [exact I|]. cbv zeta in Htail |- *.
    destruct Htail as (Hd & Hpp & Hi & Hp & Hr & Hz).
    split; [exact Hd|]. cbn [round_row payment principal_paid remaining_balance].
    rewrite Hp, Hpp, Hr. repeat split.
    revert Hz. apply Forall_impl. intros r (H1 & H2 & H3).
    cbn [round_row payment principal_paid remaining_balance].
    rewrite H1, H2, H3. repeat split.
Qed.

End Loop.

End Binary64Correction.


(** ** Facts of the command line *)

Section CommandLineFacts.

Context {F : Type} {PF : PyFloat F}.
Variable parse_float : String.string -> option F.
Variable parse_int : String.string -> option Z.
Variable os_accepts : list (event F) -> event F -> bool.

Local Open Scope string_scope.

Lemma world_eta (w : world F) : {| stdin := stdin w; trace := trace w ++ [] |} = w.
Proof. destruct w. cbn. now rewrite app_nil_r. Qed.

Lemma accepted_written (ops : list (event F)) :
  forall t, accepted os_accepts t ops = true -> written os_accepts t ops = ops.
Proof.
  induction ops as [|e rest IH]; intros t; [reflexivity|].
  cbn [accepted written]. destruct (os_accepts t e); [|discriminate].
  cbn [andb]. intros H. now rewrite IH.
Qed.

Lemma accepted_app (l1 l2 : list (event F)) :
  forall t, accepted os_accepts t (l1 ++ l2)
            = accepted os_accepts t l1 && accepted os_accepts (t ++ l1) l2.
Proof.
  induction l1 as [|e rest IH]; intros t.
  - cbn. now rewrite app_nil_r.
  - cbn [app accepted]. rewrite IH, <- app_assoc, andb_assoc. reflexivity.
Qed.

Lemma written_prefix (ops : list (event F)) :
  forall t, exists k, written os_accepts t ops = firstn k ops.
Proof.
  induction ops as [|e rest IH]; intros t; [exists O; reflexivity|].
  cbn [written]. destruct (os_accepts t e); [|exists O; reflexivity].
  destruct (IH (t ++ [e])) as (k & E). exists (S k). cbn [firstn]. now rewrite E.
Qed.

Lemma write_rows_run (schedule : list (row F)) :
  forall w,
    let ops := map (fun r => FileRow (csv_record r)) schedule in
    write_rows os_accepts schedule w
    = ({| stdin := stdin w; trace := trace w ++ written os_accepts (trace w) ops |},
       if accepted os_accepts (trace w) ops then Done tt else Stop OSError).
Proof.
  induction schedule as [|r rest IH]; intros w; cbv zeta.
  - cbn. now rewrite world_eta.
  - cbn [write_rows]. unfold bind_io at 1.
    change (lift (dict_to_list fieldnames (row_dict r)) w) with (w, Done (csv_record r)).
    cbn iota. unfold bind_io at 1. unfold file_op. cbn [map written accepted].
    destruct (os_accepts (trace w) (FileRow (csv_record r))).
    + cbn [emit andb]. rewrite IH. cbn [stdin trace]. rewrite <- app_assoc. reflexivity.
    + cbn [andb]. now rewrite world_eta.
Qed.

(** What export_schedule_to_csv does, whatever the operating system allows:
    nothing when the file cannot be opened; otherwise the records it can
    write, in order, and the closing of the file. *)
Lemma export_run (schedule : list (row F)) (filename : String.string) (w : world F) :
  export_schedule_to_csv os_accepts schedule filename w
  = if os_accepts (trace w) (FileOpen filename) then
      let t1 := trace w ++ [FileOpen filename] in
      let t2 := t1 ++ written os_accepts t1 (csv_records schedule) in
      if os_accepts t2 FileClose
      then ({| stdin := stdin w; trace := t2 ++ [FileClose] |},
            if accepted os_accepts t1 (csv_records schedule) then Done tt
            else Stop OSError)
      else ({| stdin := stdin w; trace := t2 |}, Stop OSError)
    else (w, Stop OSError).
Proof.
  unfold export_schedule_to_csv, with_open. unfold file_op at 1.
  destruct (os_accepts (trace w) (FileOpen filename)); [|reflexivity].
  cbn [emit]. cbv zeta. unfold bind_io. unfold file_op at 1. cbn [stdin trace].
  unfold csv_records. cbn [written accepted].
  destruct (os_accepts (trace w ++ [FileOpen filename])
              (FileRow (map (@CText F) fieldnames))).
  - cbn [emit andb]. rewrite write_rows_run. cbn [stdin trace].
    unfold file_op. cbn [stdin trace]. rewrite <- !app_assoc. cbn [app].
    destruct (os_accepts _ FileClose); [|reflexivity].
    cbn [emit stdin trace]. rewrite <- !app_assoc. cbn [app].
    destruct (accepted os_accepts _ _); reflexivity.
  - cbn [andb]. unfold file_op. cbn [stdin trace]. rewrite app_nil_r.
    destruct (os_accepts _ FileClose); reflexivity.
Qed.

Lemma export_complete (schedule : list (row F)) (filename : String.string)
    (w : world F) :
  accepted os_accepts (trace w) (FileOpen filename :: csv_records schedule ++ [FileClose])
  = true ->
  export_schedule_to_csv os_accepts schedule filename w
  = ({| stdin := stdin w;
        trace := trace w ++ FileOpen filename :: csv_records schedule ++ [FileClose] |},
     Done tt).
Proof.
  intros H. rewrite export_run. cbn [accepted] in H.
  apply andb_prop in H as (Ho & H). rewrite accepted_app in H.
  apply andb_prop in H as (Hr & Hc). cbn [accepted] in Hc. rewrite andb_true_r in Hc.
  rewrite Ho. cbv zeta. rewrite (accepted_written _ _ Hr), Hr, Hc.
  rewrite <- !app_assoc. reflexivity.
Qed.

Lemma export_refused (schedule : list (row F)) (filename : String.string)
    (w : world F) :
  accepted os_accepts (trace w) (FileOpen filename :: csv_records schedule ++ [FileClose])
  = false ->
  snd (export_schedule_to_csv os_accepts schedule filename w) = Stop OSError
  /\ exists closing,
       fst (export_schedule_to_csv os_accepts schedule filename w)
       = {| stdin := stdin w;
            trace := trace w
                     ++ written os_accepts (trace w) (FileOpen filename :: csv_records schedule)
                     ++ closing |}
       /\ (closing = [] \/ closing = [FileClose])
       /\ (os_accepts (trace w) (FileOpen filename) = false -> closing = []).
Proof.
  intros H. rewrite export_run. cbn [accepted written] in H |- *.
  destruct (os_accepts (trace w) (FileOpen filename)) eqn:Ho.
  - cbn [andb] in H. rewrite accepted_app in H. cbv zeta.
    destruct (os_accepts _ FileClose) eqn:Hc.
    + cbn [fst snd]. split.
      * destruct (accepted os_accepts (trace w ++ [FileOpen filename])
                    (csv_records schedule)) eqn:Hr; [|reflexivity].
        cbn [andb accepted] in H. rewrite (accepted_written _ _ Hr) in Hc.
        rewrite <- app_assoc in Hc. cbn [app] in Hc. rewrite <- app_assoc in H.
        cbn [app] in H. rewrite Hc in H. discriminate.
      * exists [FileClose]. split; [|split; [now right|discriminate]].
        f_equal. rewrite <- !app_assoc. reflexivity.
    + cbn [fst snd]. split; [reflexivity|].
      exists []. split; [|split; [now left|reflexivity]].
      f_equal. rewrite <- !app_assoc, app_nil_r. reflexivity.
  - cbn [fst snd]. split; [reflexivity|]. exists [].
    split; [|split; [now left|reflexivity]]. cbn [app]. now rewrite world_eta.
Qed.


Lemma print_rows_trace (rows : list (row F)) :
  forall w,
    fold_right (fun r k => bind_io (emit (PrintedRow r)) (fun _ => k)) (ret tt) rows w
    = ({| stdin := stdin w; trace := trace w ++ map (@PrintedRow F) rows |}, Done tt).
Proof.
  induction rows as [|r rest IH]; intros w.
  - cbn. rewrite app_nil_r. destruct w; reflexivity.
  - cbn [fold_right]. unfold bind_io at 1. cbn [emit]. rewrite IH.
    cbn [stdin trace map]. rewrite <- app_assoc. reflexivity.
Qed.

Lemma main_amortization_run (a : args F) (principal rate years : F) (w : world F) :
  a_principal a = Some principal -> a_rate a = Some rate -> a_years a = Some years ->
  main_amortization os_accepts a w
  = match amortization_schedule principal rate years with
    | Ok sched =>
        match given (a_out a) with
        | Some name =>
            match export_schedule_to_csv os_accepts sched name w with
            | (w', Done _) =>
                ({| stdin := stdin w';
                    trace := trace w'
                             ++ [Printed [Text "Exported amortization schedule to ";
                                          Text name]] |}, Done tt)
            | (w', Stop s) => (w', Stop s)
            end
        | None =>
            ({| stdin := stdin w;
                trace := trace w ++ amortization_output (a_out a) sched |}, Done tt)
        end
    | Raise e => (w, Stop (Uncaught e))
    | Complex => (w, Stop NotFollowed)
    end.
Proof.
  intros Hp Hr Hy. unfold main_amortization. rewrite Hp, Hr, Hy.
  unfold bind_io at 1.
  destruct (amortization_schedule principal rate years) as [sched|e|]; cbn [lift ret halt];
    try reflexivity.
  unfold amortization_output. destruct (given (a_out a)) as [name|].
  - unfold bind_io at 1.
    destruct (export_schedule_to_csv os_accepts sched name w) as [w' [[]|s]];
      reflexivity.
  - unfold bind_io at 1. unfold print at 1, emit at 1. unfold bind_io at 1.
    rewrite print_rows_trace. unfold print, emit. cbn [stdin trace].
    repeat rewrite <- app_assoc. reflexivity.
Qed.

(** X14: in amortization mode, once the schedule is computed, main writes
    the whole schedule to the file named by a non-empty --out and then
    prints one line, provided the operating system carries out every
    operation on the file; when one is refused main ends with OSError
    without printing that line, and when [open()] is refused it has done
    nothing at all.  Without --out (or with an empty name) main prints the
    first 12 rows at most and the number of months.  When the schedule
    cannot be computed it does neither. *)
Theorem main_amortization_output (a : args F) (principal rate years : F) (w : world F) :
  a_mode a = Some Amortization ->
  a_principal a = Some principal -> a_rate a = Some rate -> a_years a = Some years ->
  let run := main parse_float parse_int os_accepts false (Namespace a) w in
  match amortization_schedule principal rate years with
  | Ok sched =>
      match given (a_out a) with
      | Some name =>
          let ops := FileOpen name :: csv_records sched in
          if accepted os_accepts (trace w) (ops ++ [FileClose])
          then run = ({| stdin := stdin w;
                         trace := trace w ++ amortization_output (a_out a) sched |},
                      Done tt)
          else snd run = Stop OSError
               /\ (exists closing,
                     fst run = {| stdin := stdin w;
                                  trace := trace w ++ written os_accepts (trace w) ops
                                             ++ closing |}
                     /\ (closing = [] \/ closing = [FileClose]))
               /\ (os_accepts (trace w) (FileOpen name) = false -> fst run = w)
      | None =>
          run = ({| stdin := stdin w;
                    trace := trace w ++ amortization_output (a_out a) sched |}, Done tt)
      end
  | Raise e => run = (w, Stop (Uncaught e))
  | Complex => run = (w, Stop NotFollowed)
  end.
Proof.
  intros Hm Hp Hr Hy run. unfold run, main. rewrite Hm.
  rewrite (main_amortization_run a w Hp Hr Hy).
  destruct (amortization_schedule principal rate years) as [sched|e|]; try reflexivity.
  unfold amortization_output.
  destruct (given (a_out a)) as [name|]; [|reflexivity]. cbv zeta.
  destruct (accepted os_accepts (trace w) ((FileOpen name :: csv_records sched) ++ [FileClose]))
    eqn:Ha.
  - cbn [app] in Ha. rewrite (export_complete _ _ _ Ha). cbn [stdin trace].
    do 2 f_equal. rewrite <- !app_assoc. cbn [app]. rewrite <- !app_assoc. reflexivity.
  - cbn [app] in Ha.
    destruct (export_refused sched name w Ha) as (Hs & closing & Hf & Hc & Ho).
    pose proof (export_run sched name w) as Hrun.
    destruct (export_schedule_to_csv os_accepts sched name w) as [w' [[]|s]];
      cbn [fst snd] in *; [discriminate|].
    split; [exact Hs|]. split; [exists closing; now split|].
    intros Hopen. rewrite Hopen in Hrun. now injection Hrun as -> _.
Qed.

Lemma result_pair (A : Type) (p : world F * result A) : p = (fst p, snd p).
Proof. now destruct p. Qed.

(** *** The interactive session *)

Lemma frugal_bind (A B : Type) (c : io F A) (k : A -> io F B) :
  frugal c -> (forall a, frugal (F := F) (k a)) -> frugal (F := F) (bind_io c k).
Proof.
  intros Hc Hk w. unfold bind_io. specialize (Hc w).
  destruct (c w) as [w1 [a|s]]; cbn [fst] in *; [|exact Hc].
  specialize (Hk a w1). lia.
Qed.

Lemma tame_bind (A B : Type) (c : io F A) (k : A -> io F B) :
  tame c -> (forall a, tame (F := F) (k a)) -> tame (F := F) (bind_io c k).
Proof.
  intros Hc Hk w w' s. unfold bind_io.
  destruct (c w) as [w1 [a|s1]] eqn:E.
  - apply Hk.
  - intros H. injection H as _ <-. eapply Hc. exact E.
Qed.

Lemma reads_bind_l (A B : Type) (c : io F A) (k : A -> io F B) :
  reads c -> (forall a, frugal (F := F) (k a)) -> reads (F := F) (bind_io c k).
Proof.
  intros Hc Hk w w' b. unfold bind_io.
  destruct (c w) as [w1 [a|s1]] eqn:E; [|discriminate].
  intros H. specialize (Hc _ _ _ E). specialize (Hk a w1). rewrite H in Hk.
  cbn [fst] in Hk. lia.
Qed.

Lemma reads_bind_r (A B : Type) (c : io F A) (k : A -> io F B) :
  frugal c -> (forall a, reads (F := F) (k a)) -> reads (F := F) (bind_io c k).
Proof.
  intros Hc Hk w w' b. unfold bind_io. specialize (Hc w).
  destruct (c w) as [w1 [a|s1]] eqn:E; [|discriminate].
  intros H. specialize (Hk a _ _ _ H). cbn [fst] in Hc. lia.
Qed.

Lemma frugal_ret (A : Type) (a : A) : frugal (F := F) (ret a).
Proof. intros w. cbn. lia. Qed.

Lemma frugal_halt (A : Type) (s : stop) : frugal (F := F) (halt (A := A) s).
Proof. intros w. cbn. lia. Qed.

Lemma frugal_emit (e : event F) : frugal (F := F) (emit e).
Proof. intros w. cbn. lia. Qed.

Lemma frugal_lift (A : Type) (c : outcome A) : frugal (F := F) (lift c).
Proof. intros w. destruct c; cbn; lia. Qed.

Lemma frugal_input (prompt : String.string) : frugal (F := F) (input prompt).
Proof. intros w. unfold input. destruct (stdin w); cbn; lia. Qed.

Lemma reads_input (prompt : String.string) : reads (F := F) (input prompt).
Proof.
  intros w w' a. unfold input. destruct (stdin w) as [|l rest]; [discriminate|].
  intros H. injection H as <- _. cbn. lia.
Qed.

Lemma frugal_export (schedule : list (row F)) (filename : String.string) :
  frugal (F := F) (export_schedule_to_csv os_accepts schedule filename).
Proof.
  intros w. rewrite export_run.
  destruct (os_accepts (trace w) (FileOpen filename)); [|cbn; lia].
  cbv zeta. destruct (os_accepts _ FileClose); cbn; lia.
Qed.

Lemma tame_ret (A : Type) (a : A) : tame (F := F) (ret a).
Proof. intros w w' s H. discriminate. Qed.

Lemma tame_emit (e : event F) : tame (F := F) (emit e).
Proof. intros w w' s H. discriminate. Qed.

Lemma tame_lift (A : Type) (c : outcome A) : tame (F := F) (lift c).
Proof.
  intros w w' s. destruct c; cbn; intros H; try discriminate;
    injection H as _ <-; exact I.
Qed.

Lemma tame_input (prompt : String.string) : tame (F := F) (input prompt).
Proof.
  intros w w' s. unfold input. destruct (stdin w); intros H; [|discriminate].
  injection H as _ <-. exact I.
Qed.

Lemma tame_halt (A : Type) (s : stop) : ends_well s -> tame (F := F) (halt (A := A) s).
Proof. intros Hs w w' s' H. injection H as _ <-. exact Hs. Qed.

Lemma export_stops (schedule : list (row F)) (filename : String.string)
    (w w' : world F) (s : stop) :
  export_schedule_to_csv os_accepts schedule filename w = (w', Stop s) -> s = OSError.
Proof.
  rewrite export_run.
  destruct (os_accepts (trace w) (FileOpen filename));
    [|intros H; now injection H as _ <-].
  cbv zeta. destruct (os_accepts _ FileClose); [|intros H; now injection H as _ <-].
  destruct (accepted os_accepts _ _); intros H; [discriminate|].
  now injection H as _ <-.
Qed.

Lemma tame_export (schedule : list (row F)) (filename : String.string) :
  tame (F := F) (export_schedule_to_csv os_accepts schedule filename).
Proof. intros w w' s H. apply export_stops in H. subst s. exact I. Qed.

Lemma frugal_input_float (prompt : String.string) : frugal (F := F) (input_float parse_float prompt).
Proof.
  apply frugal_bind; [apply frugal_input|]. intros l.
  destruct (parse_float l); [apply frugal_ret|apply frugal_halt].
Qed.

Lemma frugal_input_int (prompt : String.string) : frugal (F := F) (input_int parse_int prompt).
Proof.
  apply frugal_bind; [apply frugal_input|]. intros l.
  destruct (parse_int l); [apply frugal_ret|apply frugal_halt].
Qed.

Lemma tame_input_float (prompt : String.string) : tame (F := F) (input_float parse_float prompt).
Proof.
  apply tame_bind; [apply tame_input|]. intros l.
  destruct (parse_float l); [apply tame_ret|apply tame_halt; exact I].
Qed.

Lemma tame_input_int (prompt : String.string) : tame (F := F) (input_int parse_int prompt).
Proof.
  apply tame_bind; [apply tame_input|]. intros l.
  destruct (parse_int l); [apply tame_ret|apply tame_halt; exact I].
Qed.

Ltac frugal_steps :=
  repeat first
    [ apply frugal_ret | apply frugal_halt | apply frugal_emit | apply frugal_lift
    | apply frugal_input | apply frugal_input_float | apply frugal_input_int
    | apply frugal_export
    | apply frugal_bind; [|intros ?] ].

Ltac tame_steps :=
  repeat first
    [ apply tame_ret | apply tame_emit | apply tame_lift
    | apply tame_input | apply tame_input_float | apply tame_input_int
    | apply tame_export
    | apply tame_halt; reflexivity
    | apply tame_bind; [|intros ?] ].

Lemma frugal_choice (choice : String.string) :
  frugal (F := F) match parse_int choice with
         | None => print [Text "Invalid choice"]
         | Some choice =>
             if choice =? 1 then menu_1 parse_float
             else if choice =? 2 then menu_2 parse_float parse_int
             else if choice =? 3 then menu_3 parse_float
             else if choice =? 4 then menu_4 parse_float os_accepts
             else if choice =? 0
                  then bind_io (print [Text "Goodbye"]) (fun _ => halt (SystemExit 0))
                  else print [Text "Invalid choice"]
         end.
Proof.
  destruct (parse_int choice) as [c|]; [|apply frugal_emit].
  destruct (c =? 1); [unfold menu_1, print; frugal_steps|].
  destruct (c =? 2); [unfold menu_2, print; frugal_steps|].
  destruct (c =? 3); [unfold menu_3, print; frugal_steps|].
  destruct (c =? 4); [unfold menu_4, print; frugal_steps|].
  destruct (c =? 0); unfold print; frugal_steps.
Qed.

Lemma tame_choice (choice : String.string) :
  tame (F := F) match parse_int choice with
       | None => print [Text "Invalid choice"]
       | Some choice =>
           if choice =? 1 then menu_1 parse_float
           else if choice =? 2 then menu_2 parse_float parse_int
           else if choice =? 3 then menu_3 parse_float
           else if choice =? 4 then menu_4 parse_float os_accepts
           else if choice =? 0
                then bind_io (print [Text "Goodbye"]) (fun _ => halt (SystemExit 0))
                else print [Text "Invalid choice"]
       end.
Proof.
  destruct (parse_int choice) as [c|]; [|apply tame_emit].
  destruct (c =? 1); [unfold menu_1, print; tame_steps|].
  destruct (c =? 2); [unfold menu_2, print; tame_steps|].
  destruct (c =? 3); [unfold menu_3, print; tame_steps|].
  destruct (c =? 4); [unfold menu_4, print; tame_steps|].
  destruct (c =? 0); unfold print; tame_steps.
Qed.

Lemma reads_interactive_menu : reads (F := F) (interactive_menu parse_float parse_int os_accepts).
Proof.
  unfold interactive_menu, print.
  do 7 (apply reads_bind_r; [apply frugal_emit|intros _]).
  apply reads_bind_l; [apply reads_input|]. intros choice. apply frugal_choice.
Qed.

Lemma tame_interactive_menu : tame (F := F) (interactive_menu parse_float parse_int os_accepts).
Proof.
  unfold interactive_menu, print.
  do 7 (apply tame_bind; [apply tame_emit|intros _]).
  apply tame_bind; [apply tame_input|]. intros choice. apply tame_choice.
Qed.

Lemma menu_loop_stops (fuel : nat) :
  forall w, (length (stdin w) < fuel)%nat ->
    exists w' s, menu_loop parse_float parse_int os_accepts fuel w = (w', Stop s)
                 /\ ends_well s.
Proof.
  induction fuel as [|fuel IH]; intros w Hlen; [lia|].
  cbn [menu_loop]. unfold bind_io.
  destruct (interactive_menu parse_float parse_int os_accepts w) as [w1 [[]|s]] eqn:E.
  - apply IH. pose proof (reads_interactive_menu _ E). lia.
  - exists w1, s. split; [reflexivity|]. eapply tame_interactive_menu. exact E.
Qed.

(** How the interactive session ends. *)
Lemma interactive_endings (a : args F) (w : world F) :
  exists w',
    main parse_float parse_int os_accepts true (Namespace a) w = (w', Stop (SystemExit 0))
    \/ (exists e, main parse_float parse_int os_accepts true (Namespace a) w
                  = (w', Stop (Uncaught e)))
    \/ main parse_float parse_int os_accepts true (Namespace a) w = (w', Stop OSError)
    \/ main parse_float parse_int os_accepts true (Namespace a) w = (w', Stop NotFollowed).
Proof.
  unfold main.
  destruct (@menu_loop_stops (S (length (stdin w))) w ltac:(lia)) as (w1 & s & E & Hs).
  rewrite E. destruct s as [e| | |code| |]; cbn in Hs.
  - exists w1. right. left. now exists e.
  - exists w1. right. right. now left.
  - eexists. left. reflexivity.
  - subst code. exists w1. now left.
  - exists w1. now right; right; right.
  - contradiction.
Qed.



(** X16: when a calculator raises, main (run with arguments) has printed
    nothing and written no file: every output follows the computation. *)
Theorem main_silent_on_error (p : parsed F) (w w' : world F) (e : pyexn) :
  main parse_float parse_int os_accepts false p w = (w', Stop (Uncaught e)) -> w' = w.
Proof.
  destruct p as [a|message|]; [|cbn; discriminate|cbn; discriminate].
  unfold main.
  destruct (a_mode a) as [[| | |]|].
  - unfold main_simple.
    destruct (a_principal a) as [p|], (a_rate a) as [r|], (a_time a) as [t|];
      try (cbn; intros H; discriminate).
    unfold bind_io at 1. destruct (simple_interest p r t); cbn; intros H;
      try discriminate. now injection H as <- _.
  - unfold main_compound.
    destruct (a_principal a) as [p|], (a_rate a) as [r|], (a_time a) as [t|];
      try (cbn; intros H; discriminate).
    unfold bind_io at 1. destruct (compound_interest p r t (a_n a)); cbn; intros H;
      try discriminate. now injection H as <- _.
  - unfold main_loan.
    destruct (a_principal a) as [p|], (a_rate a) as [r|], (a_years a) as [y|];
      try (cbn; intros H; discriminate).
    unfold bind_io at 1. destruct (monthly_payment p r y); cbn; intros H;
      try discriminate. now injection H as <- _.
  - destruct (a_principal a) as [p|] eqn:Hp, (a_rate a) as [r|] eqn:Hr,
      (a_years a) as [y|] eqn:Hy;
      try (unfold main_amortization; rewrite Hp, ?Hr, ?Hy; cbn; intros H; discriminate).
    rewrite (main_amortization_run a w Hp Hr Hy).
    destruct (amortization_schedule p r y) as [sched|e'|]; intros H; try discriminate.
    + destruct (given (a_out a)) as [name|]; [|discriminate].
      destruct (export_schedule_to_csv os_accepts sched name w) as [w1 [[]|s]] eqn:E;
        [discriminate|].
      apply export_stops in E. subst s. discriminate.
    + now injection H as <- _.
  - cbn. intros H. discriminate.
Qed.

(** X17: run without arguments on a finite input, main always ends, for the
    menu loop cannot go on for ever: every round that returns has read a
    line.  It ends with exit status 0 (choice 0, or the end of the input),
    with an exception that nothing catches (of a conversion, of a
    calculator, or the OSError of the export), or at a compound calculation
    whose result is a complex number, beyond which the run is not
    followed. *)
Theorem interactive_session_ends (a : args F) (w : world F) :
  exists w',
    main parse_float parse_int os_accepts true (Namespace a) w = (w', Stop (SystemExit 0))
    \/ (exists e, main parse_float parse_int os_accepts true (Namespace a) w
                  = (w', Stop (Uncaught e)))
    \/ main parse_float parse_int os_accepts true (Namespace a) w = (w', Stop OSError)
    \/ main parse_float parse_int os_accepts true (Namespace a) w = (w', Stop NotFollowed).
Proof. apply interactive_endings. Qed.


Lemma interactive_menu_choice (line : String.string) (rest : list String.string)
    (t : list (event F)) :
  interactive_menu parse_float parse_int os_accepts {| stdin := line :: rest; trace := t |}
  = match parse_int line with
    | None => print [Text "Invalid choice"]
    | Some choice =>
        if choice =? 1 then menu_1 parse_float
        else if choice =? 2 then menu_2 parse_float parse_int
        else if choice =? 3 then menu_3 parse_float
        else if choice =? 4 then menu_4 parse_float os_accepts
        else if choice =? 0
             then bind_io (print [Text "Goodbye"]) (fun _ => halt (SystemExit 0))
             else print [Text "Invalid choice"]
    end {| stdin := rest; trace := t ++ menu_text ++ [Prompt "Enter choice: "] |}.
Proof.
  unfold interactive_menu, print.
  do 8 (unfold bind_io at 1; cbn [emit input stdin trace]).
  repeat rewrite <- app_assoc. reflexivity.
Qed.

(** X18: a choice that is not a number, or not one on the menu, is answered with
    "Invalid choice", and the session goes on with the next line. *)
Theorem interactive_invalid_choice_continues (a : args F) (line : String.string)
    (rest : list String.string) (t : list (event F)) :
  invalid_choice parse_int line ->
  main parse_float parse_int os_accepts true (Namespace a) {| stdin := line :: rest; trace := t |}
  = main parse_float parse_int os_accepts true (Namespace a)
      {| stdin := rest;
         trace := t ++ menu_text
                    ++ [Prompt "Enter choice: "; Printed [Text "Invalid choice"]] |}.
Proof.
  intros Hc. unfold main. cbn [stdin length].
  assert (E : interactive_menu parse_float parse_int os_accepts {| stdin := line :: rest; trace := t |}
              = ({| stdin := rest;
                    trace := t ++ menu_text
                               ++ [Prompt "Enter choice: "; Printed [Text "Invalid choice"]] |},
                 Done tt)).
  { rewrite interactive_menu_choice. unfold invalid_choice in Hc.
    assert (Ht : forall l : list (event F),
               (t ++ menu_text ++ [Prompt "Enter choice: "]) ++ l
               = t ++ menu_text ++ Prompt "Enter choice: " :: l).
    { intros l. repeat rewrite <- app_assoc. reflexivity. }
    destruct (parse_int line) as [c|].
    - replace (c =? 1) with false by (symmetry; apply Z.eqb_neq; lia).
      replace (c =? 2) with false by (symmetry; apply Z.eqb_neq; lia).
      replace (c =? 3) with false by (symmetry; apply Z.eqb_neq; lia).
      replace (c =? 4) with false by (symmetry; apply Z.eqb_neq; lia).
      replace (c =? 0) with false by (symmetry; apply Z.eqb_neq; lia).
      unfold print, emit. cbn [stdin trace]. now rewrite Ht.
    - unfold print, emit. cbn [stdin trace]. now rewrite Ht. }
  change (menu_loop parse_float parse_int os_accepts (S (S (length rest))))
    with (bind_io (interactive_menu parse_float parse_int os_accepts)
            (fun _ => menu_loop parse_float parse_int os_accepts (S (length rest)))).
  unfold bind_io at 1. rewrite E. reflexivity.
Qed.

(** X19: a field that is not a number is not caught: after a choice of 1 to 4, a
    first answer that [float] rejects ends the whole session with ValueError. *)
Theorem interactive_bad_number_uncaught (a : args F) (choice bad : String.string)
    (c : Z) (rest : list String.string) (t : list (event F)) :
  parse_int choice = Some c -> 1 <= c <= 4 -> parse_float bad = None ->
  main parse_float parse_int os_accepts true (Namespace a) {| stdin := choice :: bad :: rest; trace := t |}
  = ({| stdin := rest;
        trace := t ++ menu_text
                   ++ [Prompt "Enter choice: "; Prompt (first_prompt c)] |},
     Stop (Uncaught ValueError)).
Proof.
  intros Hc Hr Hb. unfold main. cbn [stdin length].
  assert (E : interactive_menu parse_float parse_int os_accepts
                {| stdin := choice :: bad :: rest; trace := t |}
              = ({| stdin := rest;
                    trace := t ++ menu_text
                               ++ [Prompt "Enter choice: "; Prompt (first_prompt c)] |},
                 Stop (Uncaught ValueError))).
  { rewrite interactive_menu_choice, Hc.
    assert (Ht : forall l : list (event F),
               (t ++ menu_text ++ [Prompt "Enter choice: "]) ++ l
               = t ++ menu_text ++ Prompt "Enter choice: " :: l).
    { intros l. repeat rewrite <- app_assoc. reflexivity. }
    assert (Hcases : c = 1 \/ c = 2 \/ c = 3 \/ c = 4) by lia.
    destruct Hcases as [-> | [-> | [-> | ->]]]; cbn [Z.eqb Pos.eqb];
      [unfold menu_1|unfold menu_2|unfold menu_3|unfold menu_4];
      unfold bind_io at 1; unfold input_float; unfold bind_io at 1;
      cbn [input stdin trace]; rewrite Hb; cbn [halt]; now rewrite Ht. }
  change (menu_loop parse_float parse_int os_accepts (S (S (S (length rest)))))
    with (bind_io (interactive_menu parse_float parse_int os_accepts)
            (fun _ => menu_loop parse_float parse_int os_accepts (S (S (length rest))))).
  unfold bind_io at 1. rewrite E. reflexivity.
Qed.

End CommandLineFacts.

Section InteractiveExit.

Context {F : Type} {PF : PyFloat F}.
Variable parse_float : String.string -> option F.
Variable parse_int : String.string -> option Z.
Variable os_accepts : list (event F) -> event F -> bool.

Local Open Scope string_scope.

(** X20: choice 0 prints "Goodbye" and ends the session with exit status 0,
    leaving the rest of the input unread; the end of the input at the choice
    prompt prints "Exiting" after a line feed and ends it with exit status 0
    as well. *)
Theorem interactive_exit (a : args F) (line : String.string)
    (rest : list String.string) (t : list (event F)) :
  (parse_int line = Some 0 ->
   main parse_float parse_int os_accepts true (Namespace a) {| stdin := line :: rest; trace := t |}
   = ({| stdin := rest;
         trace := t ++ menu_text
                    ++ [Prompt "Enter choice: "; Printed [Text "Goodbye"]] |},
      Stop (SystemExit 0)))
  /\ main parse_float parse_int os_accepts true (Namespace a) {| stdin := []; trace := t |}
     = ({| stdin := [];
           trace := t ++ menu_text
                      ++ [Prompt "Enter choice: ";
                          Printed [Text (String.String (Ascii.ascii_of_nat 10) "Exiting")]] |},
        Stop (SystemExit 0)).
Proof.
  assert (Ht : forall l : list (event F),
             (t ++ menu_text ++ [Prompt "Enter choice: "]) ++ l
             = t ++ menu_text ++ Prompt "Enter choice: " :: l).
  { intros l. repeat rewrite <- app_assoc. reflexivity. }
  split.
  - intros Hc. unfold main. cbn [stdin length].
    change (menu_loop parse_float parse_int os_accepts (S (S (length rest))))
      with (bind_io (interactive_menu parse_float parse_int os_accepts)
              (fun _ => menu_loop parse_float parse_int os_accepts (S (length rest)))).
    unfold bind_io at 1. rewrite interactive_menu_choice, Hc. cbn [Z.eqb].
    unfold bind_io, print, emit, halt. cbn [stdin trace]. now rewrite Ht.
  - unfold main. cbn [stdin length menu_loop].
    unfold bind_io at 1. unfold interactive_menu, print.
    do 8 (unfold bind_io at 1; cbn [emit input stdin trace]).
    unfold bind_io, emit, halt. cbn [stdin trace].
    repeat rewrite <- app_assoc. reflexivity.
Qed.

End InteractiveExit.

Section ExactLoanReport.

Import Exact.
Local Open Scope R_scope.
Local Open Scope string_scope.

Variable parse_float : String.string -> option R.
Variable parse_int : String.string -> option Z.
Variable os_accepts : list (event R) -> event R -> bool.

(** X21: absent floating-point error, in loan mode on valid terms main
    prints the monthly payment, payment * years * 12 as the total paid, and
    that total less the principal as the total interest.  The total is the
    sum of the n payments exactly when years * 12 is the whole number n. *)
Theorem exact_loan_report (a : args R) (w : world R) (principal rate years : R) (n : Z) :
  a_mode a = Some Loan ->
  a_principal a = Some principal -> a_rate a = Some rate -> a_years a = Some years ->
  valid_terms principal rate years n ->
  exists pay,
    monthly_payment principal rate years = Ok pay
    /\ main parse_float parse_int os_accepts false (Namespace a) w
       = ({| stdin := stdin w;
             trace := trace w
                      ++ [Printed [Text "Loan Payment Result"];
                          Printed [Text "Principal: "; Money principal];
                          Printed [Text "Monthly payment: "; Money pay];
                          Printed [Text "Total paid: "; Money (pay * years * 12)];
                          Printed [Text "Total interest paid: ";
                                   Money (pay * years * 12 - principal)]] |},
          Done tt)
    /\ (pay * years * 12 = pay * IZR n <-> years * 12 = IZR n).
Proof.
  intros Hm Hp Hr Hy Hv.
  pose proof (monthly_payment_exact Hv) as Hpay.
  destruct (valid_payment_nonneg Hv) as (_ & Hpos & _).
  set (pay := principal / _) in *.
  exists pay. split; [exact Hpay|]. split.
  - unfold main. rewrite Hm. unfold main_loan. rewrite Hp, Hr, Hy.
    unfold bind_io at 1. rewrite Hpay. cbn [lift ret].
    unfold bind_io, print, emit. cbn [stdin trace].
    repeat rewrite <- app_assoc. reflexivity.
  - split; intros H; [|rewrite Rmult_assoc, H; reflexivity].
    rewrite Rmult_assoc in H. apply Rmult_eq_reg_l in H; [exact H|lra].
Qed.

End ExactLoanReport.

(** ** The further theorems at concrete inputs *)

Section ExactLoanWitnesses.

Import Exact.
Local Open Scope R_scope.

(** X4 at the 30-year loan of 250000 at 3.5%. *)
Lemma exact_payments_cover_principal_witness :
  exists pay,
    monthly_payment 250000 (35 / 10) 30 = Ok pay
    /\ 250000 <= pay * IZR 360
    /\ (35 / 10 = 0 -> pay * IZR 360 = 250000)
    /\ (0 < 35 / 10 -> 250000 < pay * IZR 360).
Proof. exact (exact_payments_cover_principal valid_terms_mortgage). Defined.

(** X5 at the same loan. *)
Lemma exact_rows_balance_witness :
  amortization_schedule 250000 (35 / 10) 30
  = Ok (amortized_rows (35 / 10 / 100 / 12)
          (250000 / annuity (1 + 35 / 10 / 100 / 12) (Z.to_nat 360))
          (range 1 (360 + 1)))
  /\ Forall (fun r => Rabs (payment r - (principal_paid r + interest_paid r)) <= 1 / 100)
       (amortized_rows (35 / 10 / 100 / 12)
          (250000 / annuity (1 + 35 / 10 / 100 / 12) (Z.to_nat 360))
          (range 1 (360 + 1))).
Proof.
  split; [exact (amortization_schedule_exact valid_terms_mortgage)|].
  exact (proj1 (@exact_rows_balance _ _ _ _ (amortization_schedule_exact valid_terms_mortgage))).
Defined.

(** X6 at the same loan. *)
Lemma exact_interest_falls_principal_rises_witness :
  exists rows,
    amortization_schedule 250000 (35 / 10) 30 = Ok rows
    /\ forall l1 r1 r2 l2, rows = l1 ++ r1 :: r2 :: l2 ->
         interest_paid r2 <= interest_paid r1
         /\ principal_paid r1 <= principal_paid r2.
Proof. exact (exact_interest_falls_principal_rises valid_terms_mortgage). Defined.

End ExactLoanWitnesses.

Section Binary64LoanWitnesses.

Import Binary64.
Local Open Scope float_scope.

#[local] Existing Instance py.

(** X1 at a loan of 1200 at rate 0 over a quarter of a year. *)
Lemma schedule_rows_numbered_witness :
  amortization_schedule 1200 0 0.25 = Ok (schedule_loop 0 (range 1 4) 1200 400)
  /\ map (@month float) (schedule_loop 0 (range 1 4) 1200 400) = range 1 (3 + 1)
  /\ length (schedule_loop 0 (range 1 4) 1200 400) = Z.to_nat 3.
Proof.
  assert (H : amortization_schedule 1200 0 0.25 = Ok (schedule_loop 0 (range 1 4) 1200 400))
    by (vm_compute; reflexivity).
  split; [exact H|].
  apply (@schedule_rows_numbered float py 1200 0 0.25 3%Z); [vm_compute; reflexivity|exact H].
Defined.

(** X3 at a term of minus one year. *)
Lemma nonpositive_term_empty_schedule_witness :
  n_payments_of (-1) = Ok (-12)%Z
  /\ monthly_payment 1200 0 (-1) = Ok (-100)
  /\ amortization_schedule 1200 0 (-1) = Ok [].
Proof.
  assert (Hn : n_payments_of (-1) = Ok (-12)%Z) by (vm_compute; reflexivity).
  assert (Hp : monthly_payment 1200 0 (-1) = Ok (-100)) by (vm_compute; reflexivity).
  split; [exact Hn|]. split; [exact Hp|].
  apply (@nonpositive_term_empty_schedule float py 1200 0 (-1) (-100) (-12)%Z Hn);
    [lia|exact Hp].
Defined.


(** X9 at 1000 compounded quarterly over 3 years. *)
Lemma compound_zero_rate_witness :
  compound_interest 1000 0 3 4
  = Ok {| ci_principal := 1000; ci_amount := 1000; ci_interest := 1000 - 1000 |}.
Proof.
  apply (@compound_zero_rate pow_ref 1000 3 4 4%Z); vm_compute; reflexivity.
Defined.

(** X10 at 1000 at 5% compounded quarterly. *)
Lemma compound_zero_time_witness :
  compound_interest 1000 5 0 4
  = Ok {| ci_principal := 1000; ci_amount := 1000; ci_interest := 1000 - 1000 |}.
Proof.
  apply (@compound_zero_time pow_ref 1000 5 4 4%Z); vm_compute; reflexivity.
Defined.

(** X11 at a term of NaN years and at a term of infinitely many. *)
Lemma term_must_be_finite_witness :
  (monthly_payment 1000 5 nan = Raise ValueError
   /\ amortization_schedule 1000 5 nan = Raise ValueError)
  /\ (monthly_payment 1000 5 infinity = Raise OverflowError
      /\ amortization_schedule 1000 5 infinity = Raise OverflowError).
Proof.
  split.
  - apply (proj1 (@term_must_be_finite pow_ref 1000 5 nan)). vm_compute. reflexivity.
  - apply (proj2 (@term_must_be_finite pow_ref 1000 5 infinity)). vm_compute. reflexivity.
Defined.

(** X12 at a term of 30 years. *)
Lemma n_payments_whole_months_witness : n_payments_of 30 = Ok 360%Z.
Proof.
  apply (@n_payments_whole_months pow_ref 30 360%Z). vm_compute. reflexivity.
Defined.

End Binary64LoanWitnesses.

Section CommandLineWitnesses.

Import Binary64.
Local Open Scope float_scope.
Local Open Scope string_scope.

#[local] Existing Instance py.

(** X14 for [--mode amortization --principal 1200 --rate 0 --years 0.25
    --out schedule.csv], when the operating system refuses nothing. *)
Lemma main_amortization_output_witness :
  main (fun _ => None) (fun _ => None) (fun _ _ => true) false
    (Namespace
       {| a_mode := Some Amortization; a_principal := Some 1200; a_rate := Some 0;
          a_time := None; a_n := 1; a_years := Some 0.25;
          a_out := Some "schedule.csv" |})
    {| stdin := []; trace := [] |}
  = ({| stdin := [];
        trace := [] ++ amortization_output (Some "schedule.csv")
                         (schedule_loop 0 (range 1 4) 1200 400) |},
     Done tt).
Proof.
  pose proof (@main_amortization_output float py (fun _ => None) (fun _ => None)
                (fun _ _ => true)
                {| a_mode := Some Amortization; a_principal := Some 1200;
                   a_rate := Some 0; a_time := None; a_n := 1; a_years := Some 0.25;
                   a_out := Some "schedule.csv" |}
                1200 0 0.25 {| stdin := []; trace := [] |}
                eq_refl eq_refl eq_refl eq_refl) as H.
  vm_compute in H. vm_compute. exact H.
Defined.

(** X16 for [--mode compound --principal 1000 --rate 5 --time 3 --n 0]. *)
Lemma main_silent_on_error_witness :
  main (fun _ => None) (fun _ => None) (fun _ _ => true) false
    (Namespace {| a_mode := Some Compound; a_principal := Some 1000; a_rate := Some 5;
       a_time := Some 3; a_n := 0; a_years := None; a_out := None |})
    {| stdin := []; trace := [] |}
  = ({| stdin := []; trace := [] |}, Stop (Uncaught ZeroDivisionError))
  /\ {| stdin := []; trace := @nil (event float) |} = {| stdin := []; trace := [] |}.
Proof.
  assert (H : main (fun _ => None) (fun _ => None) (fun _ _ => true) false
    (Namespace {| a_mode := Some Compound; a_principal := Some 1000; a_rate := Some 5;
       a_time := Some 3; a_n := 0; a_years := None; a_out := None |})
    {| stdin := []; trace := [] |}
  = ({| stdin := []; trace := [] |}, Stop (Uncaught ZeroDivisionError)))
    by (vm_compute; reflexivity).
  split; [exact H|].
  exact (@main_silent_on_error float py (fun _ => None) (fun _ => None)
           (fun _ _ => true) _ _ _ _ H).
Defined.

(** X18 for a session whose only line is not a number. *)
Lemma interactive_invalid_choice_continues_witness :
  main (F := float) (fun _ => None) (fun _ => None) (fun _ _ => true) true
    (Namespace {| a_mode := None; a_principal := None; a_rate := None;
       a_time := None; a_n := 1; a_years := None; a_out := None |})
    {| stdin := ["x"]; trace := [] |}
  = main (fun _ => None) (fun _ => None) (fun _ _ => true) true
      (Namespace {| a_mode := None; a_principal := None; a_rate := None;
         a_time := None; a_n := 1; a_years := None; a_out := None |})
      {| stdin := [];
         trace := [] ++ menu_text
                    ++ [Prompt "Enter choice: "; Printed [Text "Invalid choice"]] |}.
Proof.
  apply (@interactive_invalid_choice_continues float py (fun _ => None) (fun _ => None)
           (fun _ _ => true)).
  exact I.
Defined.

(** X19 for the lines "3" and "abc". *)
Lemma interactive_bad_number_uncaught_witness :
  main (F := float) (fun _ => None) (fun _ => Some 3%Z) (fun _ _ => true) true
    (Namespace {| a_mode := None; a_principal := None; a_rate := None;
       a_time := None; a_n := 1; a_years := None; a_out := None |})
    {| stdin := ["3"; "abc"]; trace := [] |}
  = ({| stdin := [];
        trace := [] ++ menu_text
                   ++ [Prompt "Enter choice: "; Prompt (first_prompt 3)] |},
     Stop (Uncaught ValueError)).
Proof.
  apply (@interactive_bad_number_uncaught float py (fun _ => None) (fun _ => Some 3%Z)
           (fun _ _ => true));
    [reflexivity|lia|reflexivity].
Defined.

End CommandLineWitnesses.

Section FurtherWitnesses.

Import Binary64.
Local Open Scope float_scope.
Local Open Scope string_scope.

#[local] Existing Instance py.

(** X20 for a session whose first line is the choice 0. *)
Lemma interactive_exit_witness :
  main (F := float) (fun _ => None) (fun _ => Some 0%Z) (fun _ _ => true) true
    (Namespace {| a_mode := None; a_principal := None; a_rate := None;
       a_time := None; a_n := 1; a_years := None; a_out := None |})
    {| stdin := ["0"; "1"]; trace := [] |}
  = ({| stdin := ["1"];
        trace := [] ++ menu_text
                   ++ [Prompt "Enter choice: "; Printed [Text "Goodbye"]] |},
     Stop (SystemExit 0)).
Proof.
  apply (proj1 (@interactive_exit float py (fun _ => None) (fun _ => Some 0%Z)
                  (fun _ _ => true) _ "0" ["1"] [])).
  reflexivity.
Defined.

(** X22 at a loan of 1200 at rate 0 over a quarter of a year. *)
Lemma balance_never_shown_negative_witness :
  amortization_schedule 1200 0 0.25 = Ok (schedule_loop 0 (range 1 4) 1200 400)
  /\ Forall (fun r => (remaining_balance r <? 0) = false)
       (schedule_loop 0 (range 1 4) 1200 400).
Proof.
  assert (H : amortization_schedule 1200 0 0.25 = Ok (schedule_loop 0 (range 1 4) 1200 400))
    by (vm_compute; reflexivity).
  split; [exact H|].
  exact (@balance_never_shown_negative pow_ref 1200 0 0.25 _ H).
Defined.

End FurtherWitnesses.

Section ExactReportWitness.

Import Exact.
Local Open Scope R_scope.
Local Open Scope string_scope.

(** X21 for [--mode loan --principal 250000 --rate 3.5 --years 30]. *)
Lemma exact_loan_report_witness :
  exists pay,
    monthly_payment 250000 (35 / 10) 30 = Ok pay
    /\ main (fun _ => None) (fun _ => None) (fun _ _ => true) false
         (Namespace {| a_mode := Some Loan; a_principal := Some 250000; a_rate := Some (35 / 10);
            a_time := None; a_n := 1; a_years := Some 30; a_out := None |})
         {| stdin := []; trace := [] |}
       = ({| stdin := [];
             trace := []
                      ++ [Printed [Text "Loan Payment Result"];
                          Printed [Text "Principal: "; Money 250000];
                          Printed [Text "Monthly payment: "; Money pay];
                          Printed [Text "Total paid: "; Money (pay * 30 * 12)];
                          Printed [Text "Total interest paid: ";
                                   Money (pay * 30 * 12 - 250000)]] |},
          Done tt)
    /\ (pay * 30 * 12 = pay * IZR 360 <-> 30 * 12 = IZR 360).
Proof.
  exact (@exact_loan_report (fun _ => None) (fun _ => None) (fun _ _ => true)
           {| a_mode := Some Loan; a_principal := Some 250000; a_rate := Some (35 / 10);
              a_time := None; a_n := 1; a_years := Some 30; a_out := None |}
           {| stdin := []; trace := [] |} 250000 (35 / 10) 30 360%Z
           eq_refl eq_refl eq_refl eq_refl valid_terms_mortgage).
Defined.

End ExactReportWitness.

Section CorrectionWitness.
Import Binary64.
Local Open Scope float_scope.
#[local] Existing Instance py.
#[local] Set Warnings "-inexact-float".

(** C2 for 1493.80 at 600 percent over 91 months, where the correction runs
    in row 90. *)
Lemma payment_constant_until_correction_witness :
  exists plain tail,
    amortization_schedule (PF := unrounded py) 1493.8 600 7.583333333333333
    = Ok (plain ++ tail)
    /\ amortization_schedule 1493.8 600 7.583333333333333
       = Ok (map round_row (plain ++ tail))
    /\ (forall l1 r l2, plain = l1 ++ r :: l2 ->
          correction_due (600 / 100 / 12) 746.9000000000001
            (opening_balance 1493.8 l1) = false
          /\ payment (round_row r) = round2 746.9000000000001)
    /\ match tail with
       | [] => True
       | c :: zeros =>
           let b := opening_balance 1493.8 plain in
           correction_due (600 / 100 / 12) 746.9000000000001 b = true
           /\ payment (round_row c) = round2 (b * (600 / 100 / 12) + b)
           /\ principal_paid (round_row c) = round2 b
           /\ remaining_balance (round_row c) = 0
           /\ Forall (fun r => payment (round_row r) = 0
                               /\ principal_paid (round_row r) = 0
                               /\ remaining_balance (round_row r) = 0) zeros
       end.
Proof.
  apply (@payment_constant_until_correction pow_ref 1493.8 600 7.583333333333333
           746.9000000000001); vm_compute; reflexivity.
Defined.
End CorrectionWitness.
